(** * Spherical action-angle torus inversion

    A shallow embedding of
    [galpy/actionAngle/actionAngleSphericalInverse.py]: the batch engine
    [actionAngleSphericalInverse] (construction, point transformation,
    torus table, Fourier tables, evaluation) and the isochrone matching of
    [actionAngleSphericalInverseSingle].

    Numbers.  The source computes with IEEE binary64 values.  Every such
    value is a rational with one representation, so the embedding computes
    in [Qc], the rationals in lowest terms: a decimal literal [d] of the
    source is [fl d] here and [numpy.pi] is the rational that the binary64
    constant denotes.  Rounding, infinities and NaN are outside the
    embedding: an operation is its exact rational counterpart and a
    division by zero yields [0] where numpy yields inf or nan.  The
    statements below are about control flow, table layout and exact
    algebra, which this idealisation preserves.

    External collaborators (the potential, the forward spherical solver,
    the isochrone helper and its inverse, scipy's solvers, the elementary
    functions) are fields of the record [Externals]; the engine is
    parametrised by one such record, so a potential is always given (the
    [OSError] of [pot=None] does not arise).  Plotting and printing are
    left out, and so are the warnings of the evaluation; the warnings of
    the construction are kept as a list. *)

From Stdlib Require Import QArith Qcanon Qabs Qround ZArith List Bool Arith Lia Lqa.
Import ListNotations.
Open Scope Qc_scope.

(** ** Exceptions and results *)

Inductive exn : Type :=
| OSError | ValueError | NotImplementedError | ZeroDivisionError
| IndexError | RuntimeError | TypeError | UnboundLocalError.

Inductive result (A : Type) : Type :=
| Ok (a : A)
| Raise (e : exn).
Arguments Ok {A} a.
Arguments Raise {A} e.

Definition bind {A B : Type} (m : result A) (k : A -> result B) : result B :=
  match m with
  | Ok a => k a
  | Raise e => Raise e
  end.

Notation "x <- m ;; k" := (bind m (fun x => k))
  (at level 61, m at next level, right associativity).
Notation "' p <- m ;; k" := (bind m (fun p => k))
  (at level 61, p pattern, m at next level, right associativity).

Definition of_option {A : Type} (e : exn) (o : option A) : result A :=
  match o with
  | Some a => Ok a
  | None => Raise e
  end.

Fixpoint mapM {A B : Type} (f : A -> result B) (l : list A) : result (list B) :=
  match l with
  | [] => Ok []
  | a :: t => b <- f a ;; bs <- mapM f t ;; Ok (b :: bs)
  end.

(** ** Arithmetic of the source, over [Qc] *)

Module Num.

(** A literal of the source. *)
Definition fl (q : Q) : Qc := Q2Qc q.
Arguments fl q%_Q.

Definition Qcleb (x y : Qc) : bool := Qle_bool x y.
Definition Qcltb (x y : Qc) : bool := negb (Qle_bool y x).
Definition Qcgtb (x y : Qc) : bool := Qcltb y x.

(** [numpy.fabs] and [numpy.sign] *)
Definition fabs (x : Qc) : Qc := Q2Qc (Qabs x).
Definition sign (x : Qc) : Qc :=
  match x ?= 0 with
  | Lt => - (1)
  | Eq => 0
  | Gt => 1
  end.

(** Python's [x % m] on floats: the result has the sign of [m]. *)
Definition fmod (x m : Qc) : Qc := x - m * Q2Qc (inject_Z (Qfloor (x / m))).

(** [numpy.pi], the binary64 constant, exactly. *)
Definition pi : Qc := fl (884279719003555 # 281474976710656).

(** [(x + numpy.pi) % (2.0 * numpy.pi) - numpy.pi] *)
Definition wrap (x : Qc) : Qc := fmod (x + pi) (fl 2.0 * pi) - pi.

Definition of_nat (n : nat) : Qc := Q2Qc (inject_Z (Z.of_nat n)).

Definition fsum (l : list Qc) : Qc := fold_right Qcplus 0 l.

(** [numpy.mean] (and [numpy.nanmean], there being no NaN here) *)
Definition mean (l : list Qc) : Qc := fsum l / of_nat (length l).

(** [numpy.linspace(start, stop, num)] *)
Definition linspace (start stop : Qc) (num : nat) : list Qc :=
  match num with
  | O => []
  | S O => [start]
  | S (S _) =>
      let step := (stop - start) / of_nat (num - 1) in
      map (fun j => of_nat j * step + start) (seq 0 (num - 1)) ++ [stop]
  end.

(** [numpy.polynomial.polynomial.polyval(x, c)], Horner's scheme from the
    highest coefficient down. *)
Definition polyval (x : Qc) (c : list Qc) : Qc :=
  fold_right (fun a acc => a + acc * x) 0 c.

(** One differentiation step of [polynomial.polyder]:
    [der[j-1] = j * c[j]]. *)
Fixpoint polyder_from (j : nat) (c : list Qc) : list Qc :=
  match c with
  | [] => []
  | a :: t => of_nat j * a :: polyder_from (S j) t
  end.

Definition polyder1 (c : list Qc) : list Qc := polyder_from 1 (tl c).

(** [polynomial.polyder(c, m)]: when [m] reaches the length of [c] the
    result is the one-coefficient zero polynomial. *)
Definition polyder (c : list Qc) (m : nat) : list Qc :=
  if (length c <=? m)%nat then [0]
  else Nat.iter m polyder1 c.

Definition zipWith {A B C : Type} (f : A -> B -> C) (l : list A) (l' : list B)
  : list C :=
  map (fun p => f (fst p) (snd p)) (combine l l').

(** [numpy.nanargmin] of a one-dimensional array without NaN: the first
    index of the least value, [None] on the empty array (where numpy
    raises [ValueError]). *)
Fixpoint argmin_from (i : nat) (best : nat) (bv : Qc) (l : list Qc) : nat :=
  match l with
  | [] => best
  | x :: t =>
      if Qcltb x bv then argmin_from (S i) i x t
      else argmin_from (S i) best bv t
  end.

Definition nanargmin (l : list Qc) : option nat :=
  match l with
  | [] => None
  | x :: t => Some (argmin_from 1 0%nat x t)
  end.

(** [numpy.nanargmax], likewise. *)
Definition nanargmax (l : list Qc) : option nat :=
  nanargmin (map Qcopp l).

Definition nth_Q (l : list Qc) (i : nat) : Qc := nth i l 0.

End Num.
Import Num.

(** ** External collaborators *)

Record Externals : Type := {
  (** the potential, in its midplane: [evaluatePotentials(pot, r, 0)],
      [evaluateRforces(pot, r, 0)], [vcirc(pot, r)], [rl(pot, L)] *)
  evaluatePotentials : Qc -> Qc;
  evaluateRforces : Qc -> Qc;
  vcirc : Qc -> Qc;
  rl : Qc -> Qc;
  (** [optimize.newton] on [x * vcirc(x) - L] from [1.0]; [None] when scipy
      raises for lack of convergence *)
  newton_rl : Qc -> option Qc;
  (** [actionAngleSpherical.actionsFreqs(r, vr, vT, 0, 0)], its components
      [(jr, Omegar, Omegaz)], and [EccZmaxRperiRap], its components
      [(rperi, rap)] *)
  actionsFreqs : Qc -> Qc -> Qc -> Qc * Qc * Qc;
  EccZmaxRperiRap : Qc -> Qc -> Qc -> Qc * Qc;
  (** [IsochronePotential(amp, b)] evaluated in its midplane and its radial
      force *)
  ip : Qc -> Qc -> Qc -> Qc;
  ip_Rforce : Qc -> Qc -> Qc -> Qc;
  (** [_actionAngleIsochroneHelper] for the isochrone [(amp, b)] *)
  iso_rperirap : Qc -> Qc -> Qc -> Qc -> Qc * Qc;
  iso_Jr : Qc -> Qc -> Qc -> Qc -> Qc;
  iso_Or : Qc -> Qc -> Qc -> Qc;
  iso_angler : Qc -> Qc -> Qc -> Qc -> Qc -> bool -> Qc;
  iso_danglerdr_constant_L : Qc -> Qc -> Qc -> Qc -> Qc -> Qc -> bool -> Qc;
  iso_drdEL_constant_angler : Qc -> Qc -> Qc -> Qc -> Qc -> Qc -> Qc -> Qc -> Qc * Qc;
  (** [actionAngleIsochroneInverse] for the isochrone [(amp, b)]:
      [(jr, jphi, jz, angler, anglephi, anglez)] to [(R, vR, vT, z, vz, phi)] *)
  isoaainv : Qc -> Qc -> Qc -> Qc -> Qc -> Qc -> Qc -> Qc -> Qc * Qc * Qc * Qc * Qc * Qc;
  (** [optimize.leastsq(opt_func, start_coeffs)[0]] for torus [ii]; [None]
      when scipy raises *)
  leastsq : nat -> list Qc -> option (list Qc);
  (** [numpy.sqrt], [numpy.sin], [numpy.cos] *)
  fsqrt : Qc -> Qc;
  fsin : Qc -> Qc;
  fcos : Qc -> Qc
}.

(** ** Construction arguments of [actionAngleSphericalInverse] *)

Record config : Type := {
  Es : list Qc;
  Ls : list Qc;
  setup_interp : bool;
  Rmax : Qc;
  Rinf : Qc;
  nL : nat;
  nE : nat;
  nta : nat;
  use_pointtransform : bool;
  pt_deg : nat;
  pt_nra : nat;
  maxiter : nat;
  angle_tol : Qc;
  bisect : bool
}.

(** The default arguments of [__init__]. *)
Definition default_config : config := {|
  Es := [fl 0.1; fl 0.3];
  Ls := [fl 1.0; fl 1.2];
  setup_interp := false;
  Rmax := fl 5.0;
  Rinf := fl 25.0;
  nL := 31;
  nE := 31;
  nta := 128;
  use_pointtransform := false;
  pt_deg := 7;
  pt_nra := 301;
  maxiter := 100;
  angle_tol := fl 1e-12;
  bisect := false
|}.

(** ** The engine *)

(** [l[i] = v] on a one-dimensional array; the source never takes this
    assignment out of range on the paths modelled, where it leaves the list
    as it is. *)
Fixpoint upd {A : Type} (i : nat) (v : A) (l : list A) : list A :=
  match l, i with
  | [], _ => []
  | _ :: t, O => v :: t
  | a :: t, S i' => a :: upd i' v t
  end.

Section Engine.

Variable ext : Externals.

(** *** The (E, L) nodes: lines 120-169 of [__init__] *)

Record nodes : Type := {
  n_Ls : list Qc;             (* self._Ls *)
  n_nE : nat;                (* self._nE *)
  n_internal_Es : list Qc;    (* self._internal_Es *)
  n_internal_Ls : list Qc     (* self._internal_Ls *)
}.

Definition setup_nodes (cfg : config) : result nodes :=
  if negb (setup_interp cfg) then
    if (length (Es cfg) =? length (Ls cfg))%nat then
      Ok {| n_Ls := Ls cfg; n_nE := length (Es cfg);
            n_internal_Es := Es cfg; n_internal_Ls := Ls cfg |}
    else Raise ValueError
  else
    let gLs := linspace (fl 0.01) (Rmax cfg * vcirc ext (Rmax cfg)) (nL cfg) in
    match gLs with
    | [] => Raise IndexError          (* self._Ls[-1] *)
    | _ :: _ =>
        let RL := map (rl ext) gLs in
        let ERRL :=
          zipWith (fun l r => evaluatePotentials ext r + l ^ 2 / (fl 2.0) / r ^ 2)
                  gLs RL in
        let ERRa :=
          map (fun l => evaluatePotentials ext (Rinf cfg)
                        + l ^ 2 / (fl 2.0) / (Rinf cfg) ^ 2) gLs in
        let ts := linspace (fl 0.0) (fl 1.0) (nE cfg) in
        Ok {| n_Ls := gLs; n_nE := nE cfg;
              n_internal_Es :=
                concat (zipWith
                          (fun el ea => map (fun t => t * (ea - el) + el) ts)
                          ERRL ERRa);
              n_internal_Ls := concat (map (fun l => repeat l (nE cfg)) gLs) |}
    end.

(** *** Forward actions, frequencies and turning points: lines 170-207 *)

Record forward : Type := {
  f_L2 : list Qc;
  f_rls : list Qc;
  f_vrls : list Qc;
  f_jr : list Qc;
  f_Omegar : list Qc;
  f_Omegaz : list Qc;
  f_rperi : list Qc;
  f_rap : list Qc
}.

(** [vrls[:: n] = 0.0] *)
Definition zero_stride (n : nat) (l : list Qc) : list Qc :=
  zipWith (fun i x => if (i mod n =? 0)%nat then (fl 0.0) else x)
          (seq 0 (length l)) l.

Definition forward_actions (cfg : config) (nd : nodes) : result forward :=
  let L2 := map (fun l => l ^ 2) (n_internal_Ls nd) in
  rls <- mapM (fun l => of_option RuntimeError (newton_rl ext l))
              (n_internal_Ls nd) ;;
  let vrls0 :=
    map (fun '(e, l2, r) =>
           fsqrt ext ((fl 2.0) * (e - evaluatePotentials ext r) - l2 / r ^ 2))
        (combine (combine (n_internal_Es nd) L2) rls) in
  vrls <- (if setup_interp cfg then
             match n_nE nd with
             | O => Raise ValueError         (* slice step cannot be zero *)
             | S _ => Ok (zero_stride (n_nE nd) vrls0)
             end
           else Ok vrls0) ;;
  let orbits := combine (combine rls vrls) (n_internal_Ls nd) in
  let af := map (fun '(r, vr, l) => actionsFreqs ext r vr (l / r)) orbits in
  let pa := map (fun '(r, vr, l) => EccZmaxRperiRap ext r vr (l / r)) orbits in
  Ok {| f_L2 := L2; f_rls := rls; f_vrls := vrls;
        f_jr := map (fun t => fst (fst t)) af;
        f_Omegar := map (fun t => snd (fst t)) af;
        f_Omegaz := map snd af;
        f_rperi := map fst pa;
        f_rap := map snd pa |}.

(** *** Matching isochrones: lines 207-228 (and 1687-1704 of the
    single-torus class) *)

Definition isochrone_ampb (L2 Omegaz Omegar : Qc) : Qc :=
  L2 * Omegaz * (Omegar - Omegaz) / ((fl 2.0) * Omegaz - Omegar) ^ 2.

Definition isochrone_amp (jr L2 ampb Omegaz Omegar : Qc) : Qc :=
  fsqrt ext (Omegar * (jr + fsqrt ext (L2 + (fl 4.0) * ampb) * Omegaz / Omegar) ^ 3).

Record isochrones : Type := {
  i_OmegazoverOmegar : list Qc;
  i_amp : list Qc;
  i_b : list Qc
}.

Definition ampbs (fw : forward) : list Qc :=
  map (fun '(l2, oz, o_r) => isochrone_ampb l2 oz o_r)
      (combine (combine (f_L2 fw) (f_Omegaz fw)) (f_Omegar fw)).

Definition match_isochrones (fw : forward) : result isochrones :=
  let ampb := ampbs fw in
  if existsb (fun a => Qcltb a (fl 0.0)) ampb then Raise NotImplementedError
  else
    let amp :=
      map (fun '(jr, l2, ab, oz, o_r) => isochrone_amp jr l2 ab oz o_r)
          (combine (combine (combine (combine (f_jr fw) (f_L2 fw)) ampb)
                            (f_Omegaz fw)) (f_Omegar fw)) in
    Ok {| i_OmegazoverOmegar := zipWith Qcdiv (f_Omegaz fw) (f_Omegar fw);
          i_amp := amp;
          i_b := zipWith Qcdiv ampb amp |}.

(** The same test in [actionAngleSphericalInverseSingle.__init__], on one
    torus. *)
Definition single_match_isochrone (L jr Omegar Omegaz : Qc) : result (Qc * Qc) :=
  let L2 := L ^ 2 in
  let ampb := isochrone_ampb L2 Omegaz Omegar in
  if Qcltb ampb (fl 0.0) then Raise NotImplementedError
  else
    let amp := isochrone_amp jr L2 ampb Omegaz Omegar in
    Ok (amp, ampb / amp).

(** *** Point transformation: lines 236-262 and [_setup_pointtransform] *)

Record pointtransform : Type := {
  pt_degree : nat;                   (* self._pt_deg *)
  pt_coeffs : list (list Qc);         (* self._pt_coeffs *)
  pt_deriv_coeffs : list (list Qc);   (* self._pt_deriv_coeffs *)
  pt_deriv2_coeffs : list (list Qc);  (* self._pt_deriv2_coeffs *)
  pt_rperi : list Qc;                 (* self._pt_rperi *)
  pt_rap : list Qc                    (* self._pt_rap *)
}.

(** The branch taken when no fit is requested: "TEST FOR NOW". *)
Definition weird_c1 : Qc := fl 1.0 + fl 0.3.
Definition weird_c3 : Qc := fl 1.0 - weird_c1.
Definition weird_coeffs : list Qc := [0; weird_c1; 0; weird_c3].
Definition weird_deriv_coeffs : list Qc := [weird_c1; 0; fl 3.0 * weird_c3].
Definition weird_deriv2_coeffs : list Qc := [0; fl 6.0 * weird_c3].

Definition fixed_pointtransform (n : nat) (fw : forward) : pointtransform :=
  {| pt_degree := 3;
     pt_coeffs := repeat weird_coeffs n;
     pt_deriv_coeffs := repeat weird_deriv_coeffs n;
     pt_deriv2_coeffs := repeat weird_deriv2_coeffs n;
     pt_rperi := f_rperi fw;
     pt_rap := f_rap fw |}.

(** [ccoeffs = numpy.zeros(pt_deg + 1); ccoeffs[1] = 1.0] *)
Definition linear_coeffs (deg : nat) : list Qc :=
  upd 1 (fl 1.0) (repeat 0 (deg + 1)).

(** What [opt_func] needs of its argument before any number is computed:
    [ccoeffs[3]] must exist and [ccoeffs[4::] = coeffs] must be a legal
    assignment (equal lengths, or one value to broadcast). *)
Definition opt_func_shape (deg : nat) (coeffs : list Qc) : result unit :=
  if (deg <? 3)%nat then Raise IndexError
  else if ((length coeffs =? deg - 3) || (length coeffs =? 1))%nat then Ok tt
  else Raise ValueError.

Record pt_state : Type := {
  s_coeffs : list Qc;                 (* the loop variable [coeffs] *)
  s_rows : list (list Qc);
  s_deriv_rows : list (list Qc);
  s_deriv2_rows : list (list Qc);
  s_pt_rperi : list Qc;
  s_pt_rap : list Qc
}.

Definition pt_step (deg nra : nat) (fw : forward) (st : pt_state) (ii : nat)
  : result pt_state :=
  if Qcltb (nth_Q (f_jr fw) ii) (fl 1e-10) then
    (* Just use identity for small J *)
    let row := linear_coeffs deg in
    Ok {| s_coeffs := row;
          s_rows := s_rows st ++ [row];
          s_deriv_rows := s_deriv_rows st ++ [repeat (fl 1.0) deg];
          s_deriv2_rows := s_deriv2_rows st ++ [repeat (fl 0.0) (deg - 1)];
          s_pt_rperi := upd ii (nth_Q (f_rperi fw) ii) (s_pt_rperi st);
          s_pt_rap := upd ii (nth_Q (f_rap fw) ii) (s_pt_rap st) |}
  else
    let start_coeffs :=
      if (ii =? 0)%nat then (fl 0.0) :: repeat (fl 0.0) (deg - 4)
      else map (fun c => c / nth_Q (s_coeffs st) 1) (skipn 2 (s_coeffs st)) in
    _ <- opt_func_shape deg start_coeffs ;;
    _ <- (if (nra <? length start_coeffs)%nat then Raise TypeError else Ok tt) ;;
    _ <- of_option RuntimeError (leastsq ext ii start_coeffs) ;;
    (* the fitted vector is dropped here: "FIXING PT TO LINEAR" *)
    let ccoeffs := linear_coeffs deg in
    Ok {| s_coeffs := ccoeffs;
          s_rows := s_rows st ++ [ccoeffs];
          s_deriv_rows := s_deriv_rows st ++ [polyder ccoeffs 1];
          s_deriv2_rows := s_deriv2_rows st ++ [polyder ccoeffs 2];
          s_pt_rperi := s_pt_rperi st;
          s_pt_rap := s_pt_rap st |}.

Fixpoint pt_loop (deg nra : nat) (fw : forward) (st : pt_state)
         (iis : list nat) : result pt_state :=
  match iis with
  | [] => Ok st
  | ii :: rest => st' <- pt_step deg nra fw st ii ;; pt_loop deg nra fw st' rest
  end.

Definition setup_pointtransform (deg nra : nat) (nd : nodes) (fw : forward)
           (iso : isochrones) : result pointtransform :=
  let Etilde :=
    map (fun '(l2, rp, a, b) => l2 / (fl 2.0) / rp ^ 2 + ip ext a b rp)
        (combine (combine (combine (f_L2 fw) (f_rperi fw)) (i_amp iso))
                 (i_b iso)) in
  let pa :=
    map (fun '(a, b, e, l2) => iso_rperirap ext a b e l2)
        (combine (combine (combine (i_amp iso) (i_b iso)) Etilde) (f_L2 fw)) in
  st <- pt_loop deg nra fw
          {| s_coeffs := []; s_rows := []; s_deriv_rows := [];
             s_deriv2_rows := [];
             s_pt_rperi := map fst pa; s_pt_rap := map snd pa |}
          (seq 0 (n_nE nd)) ;;
  Ok {| pt_degree := deg;
        pt_coeffs := s_rows st;
        pt_deriv_coeffs := s_deriv_rows st;
        pt_deriv2_coeffs := s_deriv2_rows st;
        pt_rperi := s_pt_rperi st;
        pt_rap := s_pt_rap st |}.

Definition init_pointtransform (cfg : config) (nd : nodes) (fw : forward)
           (iso : isochrones) : result pointtransform :=
  if use_pointtransform cfg && (1 <? pt_deg cfg)%nat then
    setup_pointtransform (pt_deg cfg) (pt_nra cfg) nd fw iso
  else
    Ok (fixed_pointtransform (length (n_internal_Es nd)) fw).

(** *** The chain radius -> auxiliary angle: [_anglera], [_danglera],
    [_jraora], [_djradjrLish], for one node of one torus *)

Record torus : Type := {
  t_E : Qc;
  t_L : Qc;
  t_Omegar : Qc;
  t_amp : Qc;
  t_b : Qc;
  t_ptcoeffs : list Qc;
  t_ptderivcoeffs : list Qc;
  t_ptderiv2coeffs : list Qc;
  t_rperi : Qc;
  t_rap : Qc;
  t_ptrperi : Qc;
  t_ptrap : Qc
}.

Definition t_L2 (c : torus) : Qc := t_L c ^ 2.

Definition pt_x (c : torus) (ra : Qc) : Qc :=
  (ra - t_ptrperi c) / (t_ptrap c - t_ptrperi c).

Definition pt_r (c : torus) (ra : Qc) : Qc :=
  (t_rap c - t_rperi c) * polyval (pt_x c ra) (t_ptcoeffs c) + t_rperi c.

Definition pt_vr2 (c : torus) (ra : Qc) : Qc :=
  let r := pt_r c ra in
  let vr2 := (fl 2.0) * (t_E c - evaluatePotentials ext r) - t_L2 c / r ^ 2 in
  if Qcltb vr2 (fl 0.0) then (fl 0.0) else vr2.

Definition pt_piprime (c : torus) (ra : Qc) : Qc :=
  (t_rap c - t_rperi c) / (t_ptrap c - t_ptrperi c)
  * polyval (pt_x c ra) (t_ptderivcoeffs c).

Definition pt_piprime2 (c : torus) (ra : Qc) : Qc :=
  (t_rap c - t_rperi c) / (t_ptrap c - t_ptrperi c) ^ 2
  * polyval (pt_x c ra) (t_ptderiv2coeffs c).

Definition _anglera (c : torus) (ra : Qc) (vrneg : bool) : Qc :=
  iso_angler ext (t_amp c) (t_b c) ra
             (pt_vr2 c ra * / (pt_piprime c ra ^ 2)) (t_L c) vrneg.

Definition pt_dEadra (c : torus) (ra : Qc) : Qc :=
  let r := pt_r c ra in
  - pt_piprime2 c ra * / (pt_piprime c ra ^ 3) * pt_vr2 c ra
  + (t_L2 c * / (r ^ 3) + evaluateRforces ext r) / pt_piprime c ra
  - t_L2 c * / (ra ^ 3)
  - ip_Rforce ext (t_amp c) (t_b c) ra.

Definition _danglera (c : torus) (ra : Qc) (vrneg : bool) : Qc :=
  iso_danglerdr_constant_L ext (t_amp c) (t_b c) ra
    (pt_vr2 c ra * / (pt_piprime c ra ^ 2)) (t_L c) (pt_dEadra c ra) vrneg.

Definition pt_Ea (c : torus) (ra : Qc) : Qc :=
  (fl 0.5) * (pt_vr2 c ra * / (pt_piprime c ra ^ 2) + t_L2 c * / (ra ^ 2))
  + ip ext (t_amp c) (t_b c) ra.

(** [(jra, ora, Ea)] *)
Definition _jraora (c : torus) (ra : Qc) : Qc * Qc * Qc :=
  let Ea := pt_Ea c ra in
  (iso_Jr ext (t_amp c) (t_b c) Ea (t_L c), iso_Or ext (t_amp c) (t_b c) Ea, Ea).

(** [(djradjr, djradLish, dEadE, dEadL)] *)
Definition _djradjrLish (c : torus) (ra : Qc) : Qc * Qc * Qc * Qc :=
  let r := pt_r c ra in
  let Ea := pt_Ea c ra in
  let dEadra := pt_dEadra c ra in
  let pardEapardL := t_L c * (/ (ra ^ 2) - / (r ^ 2)) in
  let Ora := iso_Or ext (t_amp c) (t_b c) Ea in
  let '(dradE, dradL) :=
    iso_drdEL_constant_angler ext (t_amp c) (t_b c) ra
      (pt_vr2 c ra * / (pt_piprime c ra ^ 2)) Ea (t_L c) dEadra pardEapardL in
  let dEadE := dradE * dEadra + (fl 1.0) in
  let dEadL := dradL * dEadra + pardEapardL in
  (t_Omegar c / Ora * dEadE, dEadL / Ora, dEadE, dEadL).

(** The per-torus parameters that [_create_rgrid] tiles along the angle
    axis ([Egrid], [Lgrid], [ampgrid], [ptcoeffsgrid], ...). *)
Fixpoint tori_from (ii : nat) (nd_E nd_L : list Qc) (fw : forward)
         (iso : isochrones) (pt : pointtransform) : list torus :=
  match nd_E, nd_L with
  | e :: es, l :: ls =>
      {| t_E := e; t_L := l;
         t_Omegar := nth_Q (f_Omegar fw) ii;
         t_amp := nth_Q (i_amp iso) ii;
         t_b := nth_Q (i_b iso) ii;
         t_ptcoeffs := nth ii (pt_coeffs pt) [];
         t_ptderivcoeffs := nth ii (pt_deriv_coeffs pt) [];
         t_ptderiv2coeffs := nth ii (pt_deriv2_coeffs pt) [];
         t_rperi := nth_Q (f_rperi fw) ii;
         t_rap := nth_Q (f_rap fw) ii;
         t_ptrperi := nth_Q (pt_rperi pt) ii;
         t_ptrap := nth_Q (pt_rap pt) ii |}
      :: tori_from (S ii) es ls fw iso pt
  | _, _ => []
  end.

(** *** The torus table: [_create_rgrid] *)

(** One node of the table: its entries in the arrays [rgrid], [ta] and
    [unconv], and its entry in [tryr_min] (which the source keeps
    compressed to the unconverged nodes). *)
Record node : Type := {
  nd_r : Qc;
  nd_ta : Qc;
  nd_unconv : bool;
  nd_tryr_min : Qc
}.

(** One row of the table, with the dense pre-scan [rta] of its torus and
    its row of the step array [dr] of the bisection. *)
Record row : Type := {
  rw_torus : torus;
  rw_rta : list Qc;
  rw_dr : Qc;
  rw_nodes : list node
}.

Inductive warning : Type :=
| NewtonDidNotConverge      (* "... falling back onto simple bisection" *)
| BisectionDidNotConverge.  (* "Torus mapping with bisection did not converge" *)

Section Table.

Variable cfg : config.

(** [self._thetaa] *)
Definition thetaa : list Qc :=
  linspace (fl 0.0) ((fl 2.0) * pi * ((fl 1.0) - (fl 1.0) / of_nat (nta cfg))) (nta cfg).

(** [rgrid = numpy.linspace(0., 1., 2 * self._nta)] *)
Definition unit_grid : list Qc := linspace (fl 0.0) (fl 1.0) (2 * nta cfg).

Definition scan_radii (c : torus) : list Qc :=
  map (fun g => g * (t_ptrap c - t_ptrperi c - fl 2 * (fl 1e-8))
                + (t_ptrperi c + (fl 1e-8))) unit_grid.

Definition scan_angles (c : torus) : list Qc :=
  map (fun ra => _anglera c ra false) (scan_radii c).

(** [numpy.nanargmin(numpy.fabs((rta - thetaa + pi) % (2 pi) - pi))]
    along the scan, for one target angle *)
Definition nearest (rta : list Qc) (theta : Qc) : nat :=
  match nanargmin (map (fun t => fabs (wrap (t - theta))) rta) with
  | Some k => k
  | None => O
  end.

Definition first_guess (c : torus) (rta : list Qc) (theta : Qc) : Qc :=
  nth_Q unit_grid (nearest rta theta)
  * (t_rap c - t_rperi c - fl 2 * (fl 1e-8)) + (t_rperi c + (fl 1e-8)).

(** The mask before iterating: every node, without the column of
    [theta = 0] and without the columns from [nta // 2] on, and of
    those the ones not yet within [angle_tol]. *)
Definition first_unconv (j : nat) (ta theta : Qc) : bool :=
  negb (j =? 0)%nat && (j <? nta cfg / 2)%nat
  && Qcgtb (fabs (wrap (ta - theta))) (angle_tol cfg).

Definition first_row (c : torus) : row :=
  let rta := scan_angles c in
  let guesses := map (first_guess c rta) thetaa in
  (* Force rperi and rap to be thetar=0 and pi and don't optimize later *)
  let rs := upd (nta cfg / 2) (t_ptrap c) (upd 0 (t_ptrperi c) guesses) in
  {| rw_torus := c;
     rw_rta := rta;
     rw_dr := (fl 2.0) / ((fl 2.0) * of_nat (nta cfg) - 1) * (t_ptrap c - t_ptrperi c);
     rw_nodes :=
       map (fun '(j, theta, r) =>
              let ta := _anglera c r false in
              {| nd_r := r; nd_ta := ta;
                 nd_unconv := first_unconv j ta theta;
                 nd_tryr_min := 0 |})
           (combine (combine (seq 0 (length thetaa)) thetaa) rs) |}.

Definition on_nodes (f : torus -> Qc -> Qc -> node -> node) (rw : row) : row :=
  {| rw_torus := rw_torus rw;
     rw_rta := rw_rta rw;
     rw_dr := rw_dr rw;
     rw_nodes := zipWith (f (rw_torus rw) (rw_dr rw)) thetaa (rw_nodes rw) |}.

Definition all_converged (g : list row) : bool :=
  forallb (fun rw => forallb (fun n => negb (nd_unconv n)) (rw_nodes rw)) g.

(** One pass of the Newton-Raphson loop over the unconverged nodes. *)
Definition newton_node (c : torus) (_ : Qc) (theta : Qc) (n : node) : node :=
  if nd_unconv n then
    let maxdr := (t_rap c - t_rperi c) / of_nat (nta cfg) in
    let dtadr := _danglera c (nd_r n) false in
    let dta := wrap (nd_ta n - theta) in
    let dr := - dta / dtadr in
    let dr := if Qcgtb (fabs dr) maxdr then sign dr * maxdr else dr in
    let r := nd_r n + dr in
    let r := if Qcgtb r (t_rap c) then t_rap c else r in
    let r := if Qcltb r (t_rperi c) then t_rperi c else r in
    let unconv := Qcgtb (fabs dta) (angle_tol cfg) in
    {| nd_r := r;
       nd_ta := if unconv then _anglera c r false else nd_ta n;
       nd_unconv := unconv;
       nd_tryr_min := nd_tryr_min n |}
  else n.

(** The loop [while not self._bisect]: [remaining] is [maxiter - cntr]
    on entry of a pass; the boolean returned is [cntr > maxiter]. *)
Fixpoint newton_loop (remaining : nat) (g : list row) : list row * bool :=
  let g' := map (on_nodes newton_node) g in
  match remaining with
  | O => (g', true)
  | S remaining' =>
      if all_converged g' then (g', false) else newton_loop remaining' g'
  end.

(** Start of the bisection: the scan node nearest from below. *)
Definition scan_residuals (rw : row) : list (list Qc) :=
  map (fun theta => map (fun t => wrap (t - theta)) (rw_rta rw)) thetaa.

Definition fmax_list (l : list Qc) : Qc :=
  fold_right (fun x m => if Qcltb m x then x else m) 0 l.

(** [numpy.nanmax(numpy.fabs(da))], over every torus, angle and scan
    radius *)
Definition residual_max (g : list row) : Qc :=
  fmax_list (map fabs (concat (concat (map scan_residuals g)))).

Definition below (damax : Qc) (rta : list Qc) (theta : Qc) : nat :=
  let da := map (fun t => let d := wrap (t - theta) in
                          if Qcleb (fl 0.0) d then - damax - (fl 0.1) else d) rta in
  match nanargmax da with
  | Some k => k
  | None => O
  end.

Definition bisect_start (damax : Qc) (rw : row) : row :=
  let c := rw_torus rw in
  {| rw_torus := c;
     rw_rta := rw_rta rw;
     rw_dr := rw_dr rw;
     rw_nodes :=
       zipWith (fun theta n =>
                  {| nd_r := nd_r n; nd_ta := nd_ta n;
                     nd_unconv := nd_unconv n;
                     nd_tryr_min :=
                       nth_Q unit_grid (below damax (rw_rta rw) theta)
                       * (t_ptrap c - t_ptrperi c - fl 2 * (fl 1e-8))
                       + (t_ptrperi c + (fl 1e-8)) |})
               thetaa (rw_nodes rw) |}.

(** One pass of the bisection over the unconverged nodes; [dr] is the
    step of this pass (already halved). *)
Definition bisect_node (c : torus) (dr : Qc) (theta : Qc) (n : node) : node :=
  if nd_unconv n then
    let r := nd_tryr_min n + dr in
    let newta := fmod (_anglera c r false + (fl 2.0) * pi) ((fl 2.0) * pi) in
    let dta := wrap (newta - theta) in
    {| nd_r := r;
       nd_ta := newta;
       nd_unconv := Qcgtb (fabs dta) (angle_tol cfg);
       nd_tryr_min := if Qcltb newta theta then r else nd_tryr_min n |}
  else n.

Definition halve (rw : row) : row :=
  {| rw_torus := rw_torus rw; rw_rta := rw_rta rw;
     rw_dr := rw_dr rw * (fl 0.5); rw_nodes := rw_nodes rw |}.

Definition bisect_pass (g : list row) : list row :=
  map (fun rw => on_nodes bisect_node (halve rw)) g.

(** The loop [while True] of the fallback; the boolean returned tells
    whether it stopped on [cntr > maxiter] with nodes left. *)
Fixpoint bisect_loop (remaining : nat) (g : list row) : list row * bool :=
  let g' := bisect_pass g in
  if all_converged g' then (g', false)
  else match remaining with
       | O => (g', true)
       | S remaining' => bisect_loop remaining' g'
       end.

(** [rgrid[:, nta // 2 + 1 :] = rgrid[:, 1 : nta // 2][:, ::-1]] on one
    row, with numpy's rule for the shapes: equal lengths, or a single
    value repeated, or [ValueError]. *)
Definition reflect {A : Type} (l : list A) : result (list A) :=
  let m := (nta cfg / 2)%nat in
  let src := rev (skipn 1 (firstn m l)) in
  let dst := (length l - (m + 1))%nat in
  if (length src =? dst)%nat then Ok (firstn (m + 1) l ++ src)
  else match src with
       | [x] => Ok (firstn (m + 1) l ++ repeat x dst)
       | _ => Raise ValueError
       end.

(** [ta[:, nta // 2 + 1 :] = _anglera(..., vrneg=True)] *)
Definition mirror_angles (c : torus) (rs tas : list Qc) : list Qc :=
  let m := (nta cfg / 2)%nat in
  firstn (m + 1) tas
  ++ map (fun r => _anglera c r true) (skipn (m + 1) rs).

Record table : Type := {
  tb_rgrid : list (list Qc);      (* the value returned: [self._rgrid] *)
  tb_dta : list (list Qc);        (* self._dta *)
  tb_warnings : list warning
}.

(** The two loops of [_create_rgrid], from the first guesses on: the
    rows of nodes they end with and the warnings they emit. *)
Definition solve_nodes (tori : list torus) : list row * list warning :=
  let g0 := map first_row tori in
  let '(g1, over) :=
    if bisect cfg then (g0, false) else newton_loop (maxiter cfg) g0 in
  let w1 := if over && negb (all_converged g1)
            then [NewtonDidNotConverge] else [] in
  let '(g2, w2) :=
    if bisect cfg || over then
      let '(g, unsolved) :=
        bisect_loop (maxiter cfg)
                    (map (bisect_start (residual_max g1)) g1) in
      (g, if unsolved then [BisectionDidNotConverge] else [])
    else (g1, []) in
  (g2, w1 ++ w2).

Definition _create_rgrid (tori : list torus) : result table :=
  match tori with
  | [] => Raise IndexError                  (* rs[0] *)
  | _ :: _ =>
      let '(g2, ws) := solve_nodes tori in
      rgrid <- mapM (fun rw => reflect (map nd_r (rw_nodes rw))) g2 ;;
      let tas :=
        zipWith (fun rw rs => mirror_angles (rw_torus rw) rs
                                (map nd_ta (rw_nodes rw))) g2 rgrid in
      Ok {| tb_rgrid := rgrid;
            tb_dta := map (fun ta => zipWith (fun t m => wrap (t - m)) ta thetaa)
                          tas;
            tb_warnings := ws |}
  end.

End Table.

(** *** Fourier tables: lines 313-358 of [__init__] *)

(** [numpy.real(numpy.fft.rfft(x))]: the cosine sums for the harmonics
    [0 .. len(x) // 2]. *)
Definition rfft_real (x : list Qc) : list Qc :=
  let n := length x in
  map (fun k =>
         fsum (zipWith (fun j xj =>
                          xj * fcos ext ((fl 2.0) * pi * of_nat j * of_nat k / of_nat n))
                       (seq 0 n) x))
      (seq 0 (n / 2 + 1)).

(** [numpy.real(numpy.fft.rfft(x))[1:] / n] *)
Definition harmonics (n : nat) (x : list Qc) : list Qc :=
  map (fun c => c / of_nat n) (tl (rfft_real x)).

(** [a[numpy.fabs(a) < floor] = 0.0] *)
Definition zero_small (floor : Qc) (a : list Qc) : list Qc :=
  map (fun x => if Qcltb (fabs x) floor then (fl 0.0) else x) a.

(** The three tables as extracted, before the noise floor and the
    division by the harmonic number. *)
Definition raw_nSn (n : nat) (jra : list (list Qc)) (jr : list Qc)
  : list (list Qc) :=
  zipWith (fun rw j => harmonics n (map (fun x => x - j) rw)) jra jr.

Definition raw_dSndJr (n : nat) (djradjr : list (list Qc)) : list (list Qc) :=
  map (fun rw => harmonics n (map (fun x => x / mean rw - (fl 1.0)) rw)) djradjr.

Definition raw_dSndLish (n : nat) (djradLish : list (list Qc)) : list (list Qc) :=
  map (fun rw => harmonics n (map (fun x => x - mean rw) rw)) djradLish.

(** [a /= numpy.atleast_2d(self._nforSn)[:, 1:]] on one row *)
Definition over_harmonic (ns : list nat) (a : list Qc) : list Qc :=
  zipWith (fun x n => x / of_nat n) a ns.

(** *** The engine and its construction: [__init__] *)

Record engine : Type := {
  e_interp : bool;                  (* self._interp *)
  e_Ls : list Qc;                    (* self._Ls *)
  e_internal_Es : list Qc;
  e_internal_Ls : list Qc;
  e_jr_orig : list Qc;
  e_jr : list Qc;
  e_Omegar_orig : list Qc;
  e_Omegaz_orig : list Qc;
  e_Omegar : list Qc;
  e_Omegaz : list Qc;
  e_OmegazoverOmegar : list Qc;
  e_rperi : list Qc;
  e_rap : list Qc;
  e_amp : list Qc;
  e_b : list Qc;
  e_pt : pointtransform;
  e_nta : nat;
  e_thetaa : list Qc;
  e_maxiter : nat;
  e_angle_tol : Qc;
  e_bisect : bool;
  e_rgrid : list (list Qc);
  e_dta : list (list Qc);
  e_jra : list (list Qc);
  e_djradjr : list (list Qc);
  e_djradLish : list (list Qc);
  e_nSn : list (list Qc);
  e_dSndJr : list (list Qc);
  e_dSndLish : list (list Qc);
  e_nforSn : list nat;
  e_warnings : list warning         (* what [warnings.warn] was given *)
}.

(** The point-transformation table has [self._nE] rows and every other
    table one row per torus; where the two differ the first array
    operation that pairs them raises ([ValueError] from broadcasting, or
    [IndexError] from the boolean mask when the single row would
    broadcast). *)
Definition check_rows (nd : nodes) (pt : pointtransform) : result unit :=
  if (length (pt_coeffs pt) =? length (n_internal_Es nd))%nat then Ok tt
  else if (length (pt_coeffs pt) =? 1)%nat then Raise IndexError
  else Raise ValueError.

(** Lines 271-358 and 360-364: the mapping coefficients on the table,
    the refined action and frequencies, the Fourier tables. *)
Definition tables (cfg : config) (nd : nodes) (fw : forward)
           (iso : isochrones) (pt : pointtransform) (tori : list torus)
           (tb : table) : engine :=
  let rgrid := tb_rgrid tb in
  let jra := zipWith (fun c rs => map (fun ra => fst (fst (_jraora c ra))) rs)
                     tori rgrid in
  let dj := zipWith (fun c rs => map (_djradjrLish c) rs) tori rgrid in
  let djradjr := map (map (fun t => fst (fst (fst t)))) dj in
  let djradLish := map (map (fun t => snd (fst (fst t)))) dj in
  (* Store mean(jra) as probably a better approx. of jr *)
  let jr := map mean jra in
  (* Store better approximation to Omegar and Omegaz *)
  let Omegar := zipWith (fun o rw => o / mean rw) (f_Omegar fw) djradjr in
  let Omegaz := zipWith Qcmult (i_OmegazoverOmegar iso) Omegar in
  (* Compute Fourier expansions *)
  let nforSn := seq 0 (nta cfg / 2 + 1) in
  let nSn := raw_nSn (nta cfg) jra jr in
  let dSndJr := raw_dSndJr (nta cfg) djradjr in
  let dSndLish := raw_dSndLish (nta cfg) djradLish in
  (* Interpolation of small, noisy coeffs doesn't work, so set to zero *)
  let nSn := if setup_interp cfg then map (zero_small (fl 1e-16)) nSn else nSn in
  let dSndJr :=
    if setup_interp cfg then map (zero_small (fl 1e-15)) dSndJr else dSndJr in
  let dSndLish :=
    if setup_interp cfg then map (zero_small (fl 1e-15)) dSndLish
    else dSndLish in
  {| e_interp := setup_interp cfg;
     e_Ls := n_Ls nd;
     e_internal_Es := n_internal_Es nd;
     e_internal_Ls := n_internal_Ls nd;
     e_jr_orig := f_jr fw;
     e_jr := jr;
     e_Omegar_orig := f_Omegar fw;
     e_Omegaz_orig := f_Omegaz fw;
     e_Omegar := Omegar;
     e_Omegaz := Omegaz;
     e_OmegazoverOmegar := i_OmegazoverOmegar iso;
     e_rperi := f_rperi fw;
     e_rap := f_rap fw;
     e_amp := i_amp iso;
     e_b := i_b iso;
     e_pt := pt;
     e_nta := nta cfg;
     e_thetaa := thetaa cfg;
     e_maxiter := maxiter cfg;
     e_angle_tol := angle_tol cfg;
     e_bisect := bisect cfg;
     e_rgrid := rgrid;
     e_dta := tb_dta tb;
     e_jra := jra;
     e_djradjr := djradjr;
     e_djradLish := djradLish;
     e_nSn := nSn;
     e_dSndJr := map (over_harmonic (tl nforSn)) dSndJr;
     e_dSndLish := map (over_harmonic (tl nforSn)) dSndLish;
     e_nforSn := tl nforSn;
     e_warnings := tb_warnings tb |}.

Definition init_tori (nd : nodes) (fw : forward) (iso : isochrones)
           (pt : pointtransform) : list torus :=
  tori_from 0 (n_internal_Es nd) (n_internal_Ls nd) fw iso pt.

Definition init (cfg : config) : result engine :=
  nd <- setup_nodes cfg ;;
  fw <- forward_actions cfg nd ;;
  iso <- match_isochrones fw ;;
  pt <- init_pointtransform cfg nd fw iso ;;
  _ <- (if (nta cfg =? 0)%nat then Raise ZeroDivisionError else Ok tt) ;;
  _ <- check_rows nd pt ;;
  tb <- _create_rgrid cfg (init_tori nd fw iso pt) ;;
  Ok (tables cfg nd fw iso pt (init_tori nd fw iso pt) tb).

(** *** Evaluation: [_xvFreqs], [_evaluate], [_Freqs] *)

(** "Find torus": the stored torus nearest in [jr], accepted when both
    its [jr] and its angular momentum are within [1e-10].  [Ltab] is
    [self._internal_Ls] in [_xvFreqs] and [self._Ls] in [_Freqs]. *)
Definition find_torus (eng : engine) (Ltab : list Qc) (jr jphi jz : Qc)
  : result nat :=
  indx <- of_option ValueError
            (nanargmin (map (fun x => fabs (jr - x)) (e_jr eng))) ;;
  if Qcgtb (fabs (jr - nth_Q (e_jr eng) indx)) (fl 1e-10) then Raise ValueError
  else
    Li <- of_option IndexError (nth_error Ltab indx) ;;
    if Qcgtb (fabs (jz + fabs jphi - Li)) (fl 1e-10) then Raise ValueError
    else Ok indx.

(** The local variables that the branch [if not self._interp] binds. *)
Record found : Type := {
  tE : Qc;
  tnSn : list Qc;
  tdSndJr : list Qc;
  tdSndLish : list Qc;
  tOmegazoverOmegar : Qc;
  tOmegar : Qc;
  tOmegaz : Qc;
  tamp : Qc;
  tb : Qc;
  tptcoeffs : list Qc;
  tptderivcoeffs : list Qc;
  trperi : Qc;
  trap : Qc;
  tptrperi : Qc;
  tptrap : Qc
}.

Definition bind_found (eng : engine) (indx : nat) : found :=
  {| tE := nth_Q (e_internal_Es eng) indx;
     tnSn := nth indx (e_nSn eng) [];
     tdSndJr := nth indx (e_dSndJr eng) [];
     tdSndLish := nth indx (e_dSndLish eng) [];
     tOmegazoverOmegar := nth_Q (e_OmegazoverOmegar eng) indx;
     tOmegar := nth_Q (e_Omegar eng) indx;
     tOmegaz := nth_Q (e_Omegaz eng) indx;
     tamp := nth_Q (e_amp eng) indx;
     tb := nth_Q (e_b eng) indx;
     tptcoeffs := nth indx (pt_coeffs (e_pt eng)) [];
     tptderivcoeffs := nth indx (pt_deriv_coeffs (e_pt eng)) [];
     trperi := nth_Q (e_rperi eng) indx;
     trap := nth_Q (e_rap eng) indx;
     tptrperi := nth_Q (pt_rperi (e_pt eng)) indx;
     tptrap := nth_Q (pt_rap (e_pt eng)) indx |}.

(** The first statement of [_xvFreqs]: with interpolation off the torus
    is looked up and the locals are bound; the other branch is [pass] and
    binds nothing. *)
Definition locate (eng : engine) (jr jphi jz : Qc) : result (option found) :=
  if negb (e_interp eng) then
    indx <- find_torus eng (e_internal_Ls eng) jr jphi jz ;;
    Ok (Some (bind_found eng indx))
  else Ok None.

(** Reading a local that no branch has bound. *)
Definition read_locals (o : option found) : result found :=
  of_option UnboundLocalError o.

(** [numpy.sum(coef * f(self._nforSn * a))] *)
Definition series (eng : engine) (f : Qc -> Qc) (coef : list Qc) (a : Qc) : Qc :=
  fsum (zipWith (fun n c => c * f (of_nat n * a)) (e_nforSn eng) coef).

(** [numpy.sum(self._nforSn * coef * numpy.cos(self._nforSn * a))] *)
Definition dseries (eng : engine) (coef : list Qc) (a : Qc) : Qc :=
  fsum (zipWith (fun n c => of_nat n * c * fcos ext (of_nat n * a))
                (e_nforSn eng) coef).

(** One requested radial angle: its entries in [anglera], [tar], [unconv]
    and [tryar_min]. *)
Record angle_node : Type := {
  an_angler : Qc;
  an_anglera : Qc;
  an_tar : Qc;
  an_unconv : bool;
  an_tryar_min : Qc
}.

Definition tar_of (eng : engine) (f : found) (a : Qc) : Qc :=
  a + (fl 2.0) * series eng (fsin ext) (tdSndJr f) a.

Definition first_angle (eng : engine) (f : found) (angler : Qc) : angle_node :=
  let tar := tar_of eng f angler in
  {| an_angler := angler; an_anglera := angler; an_tar := tar;
     an_unconv := Qcgtb (fabs (wrap (tar - angler))) (e_angle_tol eng);
     an_tryar_min := 0 |}.

Definition newton_angle (eng : engine) (f : found) (n : angle_node)
  : angle_node :=
  if an_unconv n then
    let maxdar := (fl 2.0) * pi / fl 101 in
    let danglear := (fl 1.0) + (fl 2.0) * dseries eng (tdSndJr f) (an_anglera n) in
    let dtar := wrap (an_tar n - an_angler n) in
    let dar := - dtar / danglear in
    let dar := if Qcgtb (fabs dar) maxdar then sign dar * maxdar else dar in
    let a := an_anglera n + dar in
    let unconv := Qcgtb (fabs dtar) (e_angle_tol eng) in
    {| an_angler := an_angler n; an_anglera := a;
       an_tar := if unconv then tar_of eng f a else an_tar n;
       an_unconv := unconv;
       an_tryar_min := an_tryar_min n |}
  else n.

Definition angles_converged (l : list angle_node) : bool :=
  forallb (fun n => negb (an_unconv n)) l.

Fixpoint newton_angles (eng : engine) (f : found) (remaining : nat)
         (l : list angle_node) : list angle_node * bool :=
  let l' := map (newton_angle eng f) l in
  match remaining with
  | O => (l', true)
  | S remaining' =>
      if angles_converged l' then (l', false)
      else newton_angles eng f remaining' l'
  end.

Definition bisect_angle (eng : engine) (f : found) (dar : Qc) (n : angle_node)
  : angle_node :=
  if an_unconv n then
    let a := an_tryar_min n + dar in
    let newtar := fmod (tar_of eng f a + (fl 2.0) * pi) ((fl 2.0) * pi) in
    let dtar := wrap (newtar - an_angler n) in
    {| an_angler := an_angler n; an_anglera := a; an_tar := newtar;
       an_unconv := Qcgtb (fabs dtar) (e_angle_tol eng);
       an_tryar_min := if Qcltb newtar (an_angler n) then a
                       else an_tryar_min n |}
  else n.

(** [dar] is the step before the pass halves it. *)
Fixpoint bisect_angles (eng : engine) (f : found) (remaining : nat) (dar : Qc)
         (l : list angle_node) : list angle_node :=
  let dar := dar * (fl 0.5) in
  let l' := map (bisect_angle eng f dar) l in
  if angles_converged l' then l'
  else match remaining with
       | O => l'
       | S remaining' => bisect_angles eng f remaining' dar l'
       end.

Definition solve_anglera (eng : engine) (f : found) (angler : list Qc)
  : list Qc :=
  let l0 := map (first_angle eng f) angler in
  let '(l1, over) :=
    if e_bisect eng then (l0, false)
    else newton_angles eng f (e_maxiter eng) l0 in
  let l2 :=
    if e_bisect eng || over then
      bisect_angles eng f (e_maxiter eng) ((fl 2.0) * pi)
        (map (fun n =>
                {| an_angler := an_angler n; an_anglera := an_anglera n;
                   an_tar := an_tar n; an_unconv := an_unconv n;
                   an_tryar_min := fl 0.0 |}) l1)
    else l1 in
  map an_anglera l2.

Record xvfreqs : Type := {
  xv : list (Qc * Qc * Qc * Qc * Qc * Qc);   (* R, vR, vT, z, vz, phi *)
  out_Omegar : Qc;
  out_Omegaphi : Qc;
  out_Omegaz : Qc
}.

(** The phase-space point of one requested angle triple. *)
Definition phase_point (eng : engine) (f : found) (point : bool)
           (jr jphi jz : Qc) (a : Qc * Qc * Qc * Qc) : Qc * Qc * Qc * Qc * Qc * Qc :=
  let '(angler, anglera, anglephi, anglez) := a in
  let jra := jr + (fl 2.0) * series eng (fcos ext) (tnSn f) anglera in
  let angleza :=
    anglez + tOmegazoverOmegar f * (anglera - angler)
    - (fl 2.0) * series eng (fsin ext) (tdSndLish f) anglera in
  let anglephia := anglephi + sign jphi * (angleza - anglez) in
  let '(Ra, vRa, vTa, za, vza, phia) :=
    isoaainv ext (tamp f) (tb f) jra jphi jz anglera anglephia angleza in
  if negb point then (Ra, vRa, vTa, za, vza, phia)
  else
    (* Need to go back to orbital plane first... *)
    let ra := fsqrt ext (Ra ^ 2 + za ^ 2) in
    let sintheta := Ra / ra in
    let costheta := za / ra in
    let vra := sintheta * vRa + costheta * vza in
    let vta := costheta * vRa - sintheta * vza in
    (* Now convert orbital-plane^A --> orbital-plane *)
    let x := (ra - tptrperi f) / (tptrap f - tptrperi f) in
    let r := (trap f - trperi f) * polyval x (tptcoeffs f) + trperi f in
    let piprime :=
      (trap f - trperi f) / (tptrap f - tptrperi f)
      * polyval x (tptderivcoeffs f) in
    let vr := vra * piprime in
    (* and back from orbital-plane --> (x,v) in cyl coordinates *)
    let vt := vta * ra / r in
    let R := sintheta * r in
    let z := costheta * r in
    let vR := vr * sintheta + vt * costheta in
    let vz := vr * costheta - vt * sintheta in
    let vT := jphi / R in
    (R, vR, vT, z, vz, phia).

(** [_xvFreqs(jr, jphi, jz, angler, anglephi, anglez, point)], the three
    angle arguments being arrays of one length. *)
Definition _xvFreqs (eng : engine) (jr jphi jz : Qc)
           (angler anglephi anglez : list Qc) (point : bool) : result xvfreqs :=
  (* Find torus *)
  locals <- locate eng jr jphi jz ;;
  (* First we need to solve for anglera *)
  f <- read_locals locals ;;
  let anglera := solve_anglera eng f angler in
  (* Then compute the auxiliary action *)
  if negb ((length anglephi =? length angler)
           && (length anglez =? length angler))%nat
  then Raise ValueError
  else
    Ok {| xv := map (phase_point eng f point jr jphi jz)
                    (combine (combine (combine angler anglera) anglephi) anglez);
          out_Omegar := tOmegar f;
          out_Omegaphi := sign jphi * tOmegaz f;
          out_Omegaz := tOmegaz f |}.

(** [_evaluate]: the first six components. *)
Definition _evaluate (eng : engine) (jr jphi jz : Qc)
           (angler anglephi anglez : list Qc)
  : result (list (Qc * Qc * Qc * Qc * Qc * Qc)) :=
  r <- _xvFreqs eng jr jphi jz angler anglephi anglez true ;;
  Ok (xv r).

(** [_Freqs(jr, jphi, jz)]: [(OmegaR, Omegaphi, Omegaz)] *)
Definition _Freqs (eng : engine) (jr jphi jz : Qc) : result (Qc * Qc * Qc) :=
  locals <- (if negb (e_interp eng) then
               indx <- find_torus eng (e_Ls eng) jr jphi jz ;;
               Ok (Some (nth_Q (e_Omegar eng) indx, nth_Q (e_Omegaz eng) indx))
             else Ok None) ;;
  '(tOmegar, tOmegaz) <- of_option UnboundLocalError locals ;;
  Ok (tOmegar, sign jphi * tOmegaz, tOmegaz).

End Engine.

(** ** Concrete collaborators and engines

    A small closed world on which the engine runs by computation: one
    family of collaborators whose forward solver reports the same actions,
    frequencies and turning points for every orbit, whose auxiliary angle
    grows linearly from pericentre to apocentre, and whose cosine is the
    indicator of zero.  It stands for the potentials of the library in the
    examples below; the general statements do not depend on it. *)

Module World.

Record setting : Type := {
  w_jr : Qc;
  w_Omegar : Qc;
  w_Omegaz : Qc;
  w_rperi : Qc;
  w_rap : Qc;
  w_aux_rperi : Qc;
  w_aux_rap : Qc;
  w_Jr_of_E : Qc -> Qc
}.

Definition make (s : setting) : Externals := {|
  evaluatePotentials := fun _ => 0;
  evaluateRforces := fun _ => 0;
  vcirc := fun _ => 1;
  rl := fun _ => 1;
  newton_rl := fun _ => Some 1;
  actionsFreqs := fun _ _ _ => (w_jr s, w_Omegar s, w_Omegaz s);
  EccZmaxRperiRap := fun _ _ _ => (w_rperi s, w_rap s);
  ip := fun _ _ _ => 0;
  ip_Rforce := fun _ _ _ => 0;
  iso_rperirap := fun _ _ _ _ => (w_aux_rperi s, w_aux_rap s);
  iso_Jr := fun _ _ E _ => w_Jr_of_E s E;
  iso_Or := fun _ _ _ => fl 2;
  iso_angler := fun _ _ ra _ _ vrneg =>
    let a := pi * ((ra - w_rperi s) / (w_rap s - w_rperi s)) in
    if vrneg then fl 2 * pi - a else a;
  iso_danglerdr_constant_L := fun _ _ _ _ _ _ _ => pi / (w_rap s - w_rperi s);
  iso_drdEL_constant_angler := fun _ _ _ _ _ _ _ _ => (0, 0);
  isoaainv := fun _ _ jr jphi jz ar ap az => (1, 0, jphi, 0, 0, ap);
  leastsq := fun _ start => Some start;
  fsqrt := fun x => x;
  fsin := fun _ => 0;
  fcos := fun x => if Qc_eq_bool x 0 then 1 else 0
|}.

(** Frequencies in the ratio 3/4, orbit between radii 1 and 2. *)
Definition regular : setting := {|
  w_jr := 1; w_Omegar := 1; w_Omegaz := fl (3 # 4);
  w_rperi := 1; w_rap := fl 2; w_aux_rperi := 1; w_aux_rap := fl 3;
  w_Jr_of_E := fun _ => 1
|}.

(** Frequencies in the ratio 2/5, below one half. *)
Definition low_ratio : setting := {|
  w_jr := 1; w_Omegar := 1; w_Omegaz := fl (2 # 5);
  w_rperi := 1; w_rap := fl 2; w_aux_rperi := 1; w_aux_rap := fl 3;
  w_Jr_of_E := fun _ => 1
|}.

(** Auxiliary actions that vary along the torus by parts in 1e17. *)
Definition noisy : setting := {|
  w_jr := 1; w_Omegar := 1; w_Omegaz := fl (3 # 4);
  w_rperi := 1; w_rap := fl 2; w_aux_rperi := 1; w_aux_rap := fl 3;
  w_Jr_of_E := fun E => 1 + E * fl 1e-17
|}.

(** One torus, four angles. *)
Definition one_torus : config := {|
  Es := [fl 0.1]; Ls := [fl 1.0]; setup_interp := false;
  Rmax := fl 5.0; Rinf := fl 25.0; nL := 31; nE := 31; nta := 4;
  use_pointtransform := false; pt_deg := 7; pt_nra := 301;
  maxiter := 100; angle_tol := fl 1e-12; bisect := false
|}.

(** The same with the point transformation requested. *)
Definition one_torus_pt : config := {|
  Es := [fl 0.1]; Ls := [fl 1.0]; setup_interp := false;
  Rmax := fl 5.0; Rinf := fl 25.0; nL := 31; nE := 31; nta := 4;
  use_pointtransform := true; pt_deg := 7; pt_nra := 301;
  maxiter := 100; angle_tol := fl 1e-12; bisect := false
|}.

(** Two tori of different angular momentum. *)
Definition two_tori : config := {|
  Es := [fl 0.1; fl 0.3]; Ls := [fl 1.0; fl 2.0]; setup_interp := false;
  Rmax := fl 5.0; Rinf := fl 25.0; nL := 31; nE := 31; nta := 4;
  use_pointtransform := false; pt_deg := 7; pt_nra := 301;
  maxiter := 100; angle_tol := fl 1e-12; bisect := false
|}.

(** Five angles. *)
Definition five_angles : config := {|
  Es := [fl 0.1]; Ls := [fl 1.0]; setup_interp := false;
  Rmax := fl 5.0; Rinf := fl 25.0; nL := 31; nE := 31; nta := 5;
  use_pointtransform := false; pt_deg := 7; pt_nra := 301;
  maxiter := 100; angle_tol := fl 1e-12; bisect := false
|}.




(** A two-by-two interpolation grid. *)
Definition small_grid : config := {|
  Es := [fl 0.1; fl 0.3]; Ls := [fl 1.0; fl 1.2]; setup_interp := true;
  Rmax := fl 5.0; Rinf := fl 25.0; nL := 2; nE := 2; nta := 4;
  use_pointtransform := false; pt_deg := 7; pt_nra := 301;
  maxiter := 100; angle_tol := fl 1e-12; bisect := false
|}.

End World.


(** ** Further definitions used by the statements *)

(** The collaborators [ext] with another least-squares solver. *)
Definition with_leastsq (ext : Externals)
           (f : nat -> list Qc -> option (list Qc)) : Externals := {|
  evaluatePotentials := evaluatePotentials ext;
  evaluateRforces := evaluateRforces ext;
  vcirc := vcirc ext;
  rl := rl ext;
  newton_rl := newton_rl ext;
  actionsFreqs := actionsFreqs ext;
  EccZmaxRperiRap := EccZmaxRperiRap ext;
  ip := ip ext;
  ip_Rforce := ip_Rforce ext;
  iso_rperirap := iso_rperirap ext;
  iso_Jr := iso_Jr ext;
  iso_Or := iso_Or ext;
  iso_angler := iso_angler ext;
  iso_danglerdr_constant_L := iso_danglerdr_constant_L ext;
  iso_drdEL_constant_angler := iso_drdEL_constant_angler ext;
  isoaainv := isoaainv ext;
  leastsq := f;
  fsqrt := fsqrt ext;
  fsin := fsin ext;
  fcos := fcos ext
|}.



(** An engine without tori, the value of [built] where construction
    raises. *)
Definition no_engine : engine := {|
  e_interp := false; e_Ls := []; e_internal_Es := []; e_internal_Ls := [];
  e_jr_orig := []; e_jr := []; e_Omegar_orig := []; e_Omegaz_orig := [];
  e_Omegar := []; e_Omegaz := []; e_OmegazoverOmegar := [];
  e_rperi := []; e_rap := []; e_amp := []; e_b := [];
  e_pt := {| pt_degree := 0; pt_coeffs := []; pt_deriv_coeffs := [];
             pt_deriv2_coeffs := []; pt_rperi := []; pt_rap := [] |};
  e_nta := 0; e_thetaa := []; e_maxiter := 0; e_angle_tol := 0;
  e_bisect := false; e_rgrid := []; e_dta := []; e_jra := [];
  e_djradjr := []; e_djradLish := []; e_nSn := []; e_dSndJr := [];
  e_dSndLish := []; e_nforSn := []; e_warnings := []
|}.

Definition built (ext : Externals) (cfg : config) : engine :=
  match init ext cfg with
  | Ok eng => eng
  | Raise _ => no_engine
  end.

(** Entry [k] of row [i] of a table. *)
Definition entry {A : Type} (t : list (list A)) (i k : nat) : option A :=
  match nth_error t i with
  | Some rw => nth_error rw k
  | None => None
  end.

(** A stored torus matches the actions [(jr, jphi, jz)]: both its radial
    action and its angular momentum are within [1e-10]. *)
Definition matches (eng : engine) (i : nat) (jr jphi jz : Qc) : Prop :=
  exists ji Li,
    nth_error (e_jr eng) i = Some ji
    /\ nth_error (e_internal_Ls eng) i = Some Li
    /\ fabs (jr - ji) <= fl 1e-10
    /\ fabs (jz + fabs jphi - Li) <= fl 1e-10.

(** Row [i] of the table holds the radius [r] at the grid angle [theta]. *)
Definition radius_at (eng : engine) (i : nat) (theta r : Qc) : Prop :=
  exists j rw,
    nth_error (e_rgrid eng) i = Some rw
    /\ nth_error (e_thetaa eng) j = Some theta
    /\ nth_error rw j = Some r.






(** The table is its own mirror image: the node of [2 pi - theta] holds
    the radius of the node of [theta]. *)
Definition mirrored (eng : engine) : Prop :=
  forall i rw,
    nth_error (e_rgrid eng) i = Some rw ->
    forall j, (1 <= j < e_nta eng)%nat ->
              nth_error rw (e_nta eng - j) = nth_error rw j.

(** Every extracted coefficient under its floor is stored as zero. *)
Definition noise_floor_applied (ext : Externals) (eng : engine) : Prop :=
  forall i k x,
    (entry (raw_nSn ext (e_nta eng) (e_jra eng) (e_jr eng)) i k = Some x ->
     fabs x < fl 1e-16 -> entry (e_nSn eng) i k = Some 0)
    /\ (entry (raw_dSndJr ext (e_nta eng) (e_djradjr eng)) i k = Some x ->
        fabs x < fl 1e-15 -> entry (e_dSndJr eng) i k = Some 0)
    /\ (entry (raw_dSndLish ext (e_nta eng) (e_djradLish eng)) i k = Some x ->
        fabs x < fl 1e-15 -> entry (e_dSndLish eng) i k = Some 0).


(** Node [j] of a row is settled at radius [r]: it holds [r] and is not
    in the mask of the root-finder. *)
Definition frozen (rw : row) (j : nat) (r : Qc) : Prop :=
  exists n, nth_error (rw_nodes rw) j = Some n
            /\ nd_unconv n = false /\ nd_r n = r.

(** What every pass of [_create_rgrid] keeps of a row of torus [c]: its
    length, its two fixed nodes, and the second half outside the mask. *)
Definition table_row (cfg : config) (c : torus) (rw : row) : Prop :=
  rw_torus rw = c
  /\ length (rw_nodes rw) = nta cfg
  /\ frozen rw 0 (if (nta cfg / 2 =? 0)%nat then t_ptrap c else t_ptrperi c)
  /\ frozen rw (nta cfg / 2) (t_ptrap c)
  /\ (forall j n, (nta cfg / 2 <= j)%nat ->
                  nth_error (rw_nodes rw) j = Some n -> nd_unconv n = false).




(** * Properties *)

(** ** Results and lists *)

Lemma bind_ok {A B : Type} (m : result A) (k : A -> result B) (b : B) :
  bind m k = Ok b -> exists a, m = Ok a /\ k a = Ok b.
Proof.
  destruct m as [a|e]; simpl; intros H; [exists a; auto | discriminate].
Qed.

Tactic Notation "bind_inv" hyp(H) "as" ident(a) ident(Ha) :=
  apply bind_ok in H; destruct H as (a & Ha & H).

Lemma mapM_ok {A B : Type} (f : A -> result B) (l : list A) (l' : list B) :
  mapM f l = Ok l' ->
  length l' = length l
  /\ forall i a, nth_error l i = Some a ->
                 exists b, nth_error l' i = Some b /\ f a = Ok b.
Proof.
  revert l'; induction l as [|a t IH]; simpl; intros l' H.
  - inversion H; subst; split; [reflexivity|].
    intros [|i] x Hx; discriminate.
  - bind_inv H as b Hb. bind_inv H as bs Hbs. inversion H; subst; clear H.
    destruct (IH _ Hbs) as [Hl Hn]. split; [simpl; congruence|].
    intros [|i] x Hx; simpl in *.
    + inversion Hx; subst. eauto.
    + eauto.
Qed.

Lemma zipWith_length {A B C : Type} (f : A -> B -> C) l l' :
  length (zipWith f l l') = Nat.min (length l) (length l').
Proof. unfold zipWith. now rewrite length_map, length_combine. Qed.

Lemma nth_error_combine {A B : Type} (l : list A) (l' : list B) i a b :
  nth_error l i = Some a -> nth_error l' i = Some b ->
  nth_error (combine l l') i = Some (a, b).
Proof.
  revert l' i; induction l as [|x t IH]; intros [|y t'] [|i]; simpl;
    try discriminate; intros Ha Hb.
  - congruence.
  - auto.
Qed.

Lemma nth_error_combine_inv {A B : Type} (l : list A) (l' : list B) i p :
  nth_error (combine l l') i = Some p ->
  nth_error l i = Some (fst p) /\ nth_error l' i = Some (snd p).
Proof.
  revert l' i; induction l as [|x t IH]; intros [|y t'] [|i]; simpl;
    try discriminate; intros H.
  - inversion H; subst; auto.
  - auto.
Qed.

Lemma nth_error_zipWith {A B C : Type} (f : A -> B -> C) l l' i a b :
  nth_error l i = Some a -> nth_error l' i = Some b ->
  nth_error (zipWith f l l') i = Some (f a b).
Proof.
  intros Ha Hb. unfold zipWith.
  rewrite nth_error_map, (nth_error_combine _ _ _ _ _ Ha Hb). reflexivity.
Qed.

Lemma nth_error_zipWith_inv {A B C : Type} (f : A -> B -> C) l l' i c :
  nth_error (zipWith f l l') i = Some c ->
  exists a b, nth_error l i = Some a /\ nth_error l' i = Some b /\ c = f a b.
Proof.
  unfold zipWith. rewrite nth_error_map.
  destruct (nth_error (combine l l') i) as [p|] eqn:E; simpl; [|discriminate].
  intros H; inversion H; subst.
  apply nth_error_combine_inv in E. destruct E. eauto.
Qed.

(** ** Stages of the construction *)

Lemma init_stages ext cfg eng :
  init ext cfg = Ok eng ->
  exists nd fw iso pt tb,
    setup_nodes ext cfg = Ok nd
    /\ forward_actions ext cfg nd = Ok fw
    /\ match_isochrones ext fw = Ok iso
    /\ init_pointtransform ext cfg nd fw iso = Ok pt
    /\ nta cfg <> 0%nat
    /\ length (pt_coeffs pt) = length (n_internal_Es nd)
    /\ _create_rgrid ext cfg (init_tori nd fw iso pt) = Ok tb
    /\ eng = tables ext cfg nd fw iso pt (init_tori nd fw iso pt) tb.
Proof.
  unfold init; intros H.
  bind_inv H as nd Hnd. bind_inv H as fw Hfw. bind_inv H as iso Hiso.
  bind_inv H as pt Hpt. bind_inv H as u Hu. bind_inv H as u' Hrows.
  bind_inv H as tb Htb. inversion H; subst; clear H.
  exists nd, fw, iso, pt, tb. repeat split; auto.
  - destruct (nta cfg =? 0)%nat eqn:E; [discriminate|].
    now apply Nat.eqb_neq in E.
  - unfold check_rows in Hrows.
    destruct (length (pt_coeffs pt) =? length (n_internal_Es nd))%nat eqn:E.
    + now apply Nat.eqb_eq in E.
    + destruct (length (pt_coeffs pt) =? 1)%nat; discriminate.
Qed.

(** ** Numbers *)

Ltac lit_Q :=
  repeat match goal with
         | |- context [this (fl ?q)] =>
             let v := eval vm_compute in (Qred q) in
             change (this (fl q)) with v
         | H : context [this (fl ?q)] |- _ =>
             let v := eval vm_compute in (Qred q) in
             change (this (fl q)) with v in H
         end.

Ltac to_Q :=
  unfold Qclt, Qcle, Qcdiv, Qcminus, of_nat in *;
  cbn [this Q2Qc Qcplus Qcmult Qcopp Qcinv Qcpower] in *;
  lit_Q;
  rewrite ?Qred_correct in *.

Lemma Qcltb_true (x y : Qc) : Qcltb x y = true <-> x < y.
Proof.
  unfold Qcltb, Qclt. rewrite negb_true_iff.
  split; intros H.
  - apply Qnot_le_lt. intros C. apply Qle_bool_iff in C. congruence.
  - destruct (Qle_bool y x) eqn:E; [|reflexivity].
    apply Qle_bool_iff in E. apply Qle_not_lt in E. contradiction.
Qed.

Lemma Qcltb_false (x y : Qc) : Qcltb x y = false <-> y <= x.
Proof.
  unfold Qcltb, Qcle. rewrite negb_false_iff. apply Qle_bool_iff.
Qed.

Lemma fl_0 : fl 0.0 = 0. Proof. apply Qc_is_canon. reflexivity. Qed.
Lemma fl_1 : fl 1.0 = 1. Proof. apply Qc_is_canon. reflexivity. Qed.
Lemma of_nat_S n : of_nat (S n) = of_nat n + 1.
Proof.
  apply Qc_is_canon. to_Q. rewrite Nat2Z.inj_succ. unfold Z.succ.
  rewrite inject_Z_plus. reflexivity.
Qed.

Lemma of_nat_0 : of_nat 0 = 0.
Proof. apply Qc_is_canon. reflexivity. Qed.

Lemma of_nat_pos n : (0 < n)%nat -> of_nat n <> 0.
Proof.
  intros H E.
  assert (Hq : (this (of_nat n) == this 0)%Q) by now rewrite E.
  unfold of_nat in Hq. cbn [this Q2Qc] in Hq. rewrite !Qred_correct in Hq.
  unfold Qeq in Hq. simpl in Hq. lia.
Qed.

Lemma of_nat_add n m : of_nat (n + m) = of_nat n + of_nat m.
Proof.
  induction n as [|n IH]; simpl.
  - rewrite of_nat_0. ring.
  - rewrite !of_nat_S, IH. ring.
Qed.

Lemma sign_cases (x y : Qc) :
  (0 < x /\ sign x * y = y)
  \/ (x < 0 /\ sign x * y = - y)
  \/ (x = 0 /\ sign x * y = 0).
Proof.
  unfold sign. destruct (x ?= 0) eqn:E.
  - right; right. split; [now apply Qceq_alt | ring].
  - right; left. split; [now apply Qclt_alt | ring].
  - left. split; [now apply Qcgt_alt in E | ring].
Qed.

(** ** Matching isochrones *)

Lemma isochrone_ampb_sign (L2 Oz Or : Qc) :
  0 < L2 -> 0 < Oz -> fl 2.0 * Oz <> Or ->
  (isochrone_ampb L2 Oz Or < 0 <-> Or < Oz).
Proof.
  intros HL HO Hd.
  assert (Hd' : ~ (2 * this Oz - this Or == 0)%Q).
  { intros E. apply Hd. apply Qc_is_canon. to_Q.
    lra. }
  unfold isochrone_ampb. to_Q.
  set (d := (2 * Oz + - Or)%Q) in *.
  assert (Hdd : (0 < d * (d * 1))%Q).
  { assert (~ d == 0)%Q by (unfold d; lra).
    nra. }
  assert (Hi : (0 < / (d * (d * 1)))%Q) by now apply Qinv_lt_0_compat.
  set (k := (/ (d * (d * 1)))%Q) in *.
  assert (HP : (0 < L2 * Oz * k)%Q).
  { apply Qmult_lt_0_compat; [apply Qmult_lt_0_compat|]; assumption. }
  setoid_replace (L2 * Oz * (Or + - Oz) * k)%Q
    with ((L2 * Oz * k) * (Or - Oz))%Q by ring.
  set (K := (L2 * Oz * k)%Q) in *.
  split; intros H; nra.
Qed.

Lemma isochrone_ampb_nonneg (L2 Oz Or : Qc) :
  0 <= L2 -> 0 <= Oz -> Oz <= Or -> 0 <= isochrone_ampb L2 Oz Or.
Proof.
  intros HL HO Hd. unfold isochrone_ampb. to_Q.
  set (d := (2 * Oz + - Or)%Q) in *.
  assert (Hi : (0 <= / (d * (d * 1)))%Q).
  { apply Qinv_le_0_compat. nra. }
  set (k := (/ (d * (d * 1)))%Q) in *.
  assert (H1 : (0 <= L2 * Oz)%Q) by (apply Qmult_le_0_compat; assumption).
  assert (H2 : (0 <= L2 * Oz * (Or + - Oz))%Q)
    by (apply Qmult_le_0_compat; [assumption | lra]).
  apply Qmult_le_0_compat; assumption.
Qed.

(** Where the test of [__init__] does raise: some node with positive
    angular momentum and frequencies has [Omegaz > Omegar]. *)
Lemma match_isochrones_rejects_above ext fw i L2 Oz Or :
  nth_error (f_L2 fw) i = Some L2 ->
  nth_error (f_Omegaz fw) i = Some Oz ->
  nth_error (f_Omegar fw) i = Some Or ->
  0 < L2 -> 0 < Oz -> Or < Oz ->
  match_isochrones ext fw = Raise NotImplementedError.
Proof.
  intros H1 H2 H3 HL HO Hr. unfold match_isochrones.
  assert (E : existsb (fun a => Qcltb a (fl 0.0)) (ampbs fw) = true).
  { apply existsb_exists. exists (isochrone_ampb L2 Oz Or). split.
    - unfold ampbs. apply nth_error_In with i.
      rewrite nth_error_map.
      rewrite (nth_error_combine _ _ _ _ _
                 (nth_error_combine _ _ _ _ _ H1 H2) H3). reflexivity.
    - apply Qcltb_true.
      rewrite fl_0. apply isochrone_ampb_sign; auto.
      intros E. subst Or. to_Q.
      lra. }
  now rewrite E.
Qed.

(** Where it does not: every node with [0 <= Omegaz <= Omegar], whatever
    the ratio of the two. *)
Lemma match_isochrones_accepts_below ext fw :
  Forall (fun t => 0 <= fst (fst t) /\ 0 <= snd (fst t) /\ snd (fst t) <= snd t)
         (combine (combine (f_L2 fw) (f_Omegaz fw)) (f_Omegar fw)) ->
  exists iso, match_isochrones ext fw = Ok iso.
Proof.
  intros H. unfold match_isochrones.
  assert (E : existsb (fun a => Qcltb a (fl 0.0)) (ampbs fw) = false).
  { unfold ampbs. induction H as [|[[l2 oz] o] t (H1 & H2 & H3) Ht IH]; simpl.
    - reflexivity.
    - rewrite IH, orb_false_r. apply Qcltb_false.
      rewrite fl_0. now apply isochrone_ampb_nonneg. }
  rewrite E. eauto.
Qed.

(** C1: frequencies in the ratio 2/5, below one half, pass the test of both
    constructors; the engine is built. *)
Theorem isochrone_test_accepts_ratio_below_half :
  World.w_Omegaz World.low_ratio < World.w_Omegar World.low_ratio / fl 2
  /\ init (World.make World.low_ratio) World.one_torus
     = Ok (built (World.make World.low_ratio) World.one_torus)
  /\ map this (e_Omegar_orig (built (World.make World.low_ratio) World.one_torus))
     = [1]%Q
  /\ map this (e_Omegaz_orig (built (World.make World.low_ratio) World.one_torus))
     = [2 # 5]%Q
  /\ (exists ab,
         single_match_isochrone (World.make World.low_ratio) 1 1 1 (fl (2 # 5))
         = Ok ab).
Proof.
  split; [vm_compute; reflexivity|].
  split; [vm_compute; reflexivity|].
  split; [vm_compute; reflexivity|].
  split; [vm_compute; reflexivity|].
  eexists. vm_compute. reflexivity.
Qed.

(** ** The point transformation *)

Lemma init_no_fit ext cfg eng :
  use_pointtransform cfg && (1 <? pt_deg cfg)%nat = false ->
  init ext cfg = Ok eng ->
  pt_coeffs (e_pt eng) = repeat weird_coeffs (length (e_internal_Es eng))
  /\ pt_rperi (e_pt eng) = e_rperi eng
  /\ pt_rap (e_pt eng) = e_rap eng.
Proof.
  intros Hb H. apply init_stages in H.
  destruct H as (nd & fw & iso & pt & tb & _ & _ & _ & Hpt & _ & _ & _ & ->).
  unfold init_pointtransform in Hpt. rewrite Hb in Hpt.
  inversion Hpt; subst; clear Hpt. simpl. auto.
Qed.

Lemma pt_step_rows ext deg nra fw st ii st' :
  pt_step ext deg nra fw st ii = Ok st' ->
  s_rows st' = s_rows st ++ [linear_coeffs deg].
Proof.
  unfold pt_step. destruct (Qcltb _ _).
  - intros H; inversion H; subst; reflexivity.
  - intros H. bind_inv H as u1 H1. bind_inv H as u2 H2. bind_inv H as u3 H3.
    inversion H; subst; reflexivity.
Qed.

Lemma pt_loop_rows ext deg nra fw iis : forall st st',
  pt_loop ext deg nra fw st iis = Ok st' ->
  s_rows st' = s_rows st ++ repeat (linear_coeffs deg) (length iis).
Proof.
  induction iis as [|ii t IH]; simpl; intros st st' H.
  - inversion H; subst. now rewrite app_nil_r.
  - bind_inv H as st1 H1. apply IH in H. apply pt_step_rows in H1.
    rewrite H, H1, <- app_assoc. reflexivity.
Qed.

Lemma init_fit ext cfg eng :
  use_pointtransform cfg && (1 <? pt_deg cfg)%nat = true ->
  init ext cfg = Ok eng ->
  pt_coeffs (e_pt eng)
  = repeat (linear_coeffs (pt_deg cfg)) (length (e_internal_Es eng)).
Proof.
  intros Hb H. apply init_stages in H.
  destruct H as (nd & fw & iso & pt & tb & _ & _ & _ & Hpt & _ & Hlen & _ & ->).
  unfold init_pointtransform in Hpt. rewrite Hb in Hpt.
  unfold setup_pointtransform in Hpt. bind_inv Hpt as st Hst.
  inversion Hpt; subst; clear Hpt. simpl in *.
  apply pt_loop_rows in Hst. simpl in Hst. rewrite Hst in *.
  rewrite repeat_length in Hlen. now rewrite Hlen.
Qed.

Lemma linear_coeffs_shape deg :
  (1 <= deg)%nat -> linear_coeffs deg = 0 :: 1 :: repeat 0 (deg - 1).
Proof.
  intros H. unfold linear_coeffs.
  destruct deg as [|d]; [lia|]. simpl. rewrite Nat.sub_0_r, Nat.add_comm. simpl.
  f_equal. f_equal. apply Qc_is_canon. reflexivity.
Qed.

Lemma weird_coeffs_value :
  map this weird_coeffs = [0; 13 # 10; 0; (-3) # 10]%Q.
Proof. vm_compute. reflexivity. Qed.

(** C2: on a construction without fit the stored polynomial has slopes
    1.3 and 0.4 at the ends, not 1. *)
Theorem default_transform_breaks_slopes ext cfg eng :
  use_pointtransform cfg = false ->
  init ext cfg = Ok eng ->
  forall c,
    In c (pt_coeffs (e_pt eng)) ->
    polyval 0 c = 0
    /\ polyval 1 c = 1
    /\ polyval 0 (polyder c 1) = fl 1.3
    /\ polyval 1 (polyder c 1) = fl 0.4
    /\ fl 1e-8 < fabs (polyval 0 (polyder c 1) - 1)
    /\ fl 1e-8 < fabs (polyval 1 (polyder c 1) - 1).
Proof.
  intros Hu H c Hc.
  destruct (init_no_fit ext cfg eng) as (E & _); [now rewrite Hu | exact H |].
  rewrite E in Hc. apply repeat_spec in Hc. subst c.
  repeat split; try (apply Qc_is_canon; vm_compute; reflexivity);
    vm_compute; reflexivity.
Qed.

Lemma default_transform_breaks_slopes_witness :
  use_pointtransform World.one_torus = false
  /\ init (World.make World.regular) World.one_torus
     = Ok (built (World.make World.regular) World.one_torus)
  /\ In weird_coeffs
        (pt_coeffs (e_pt (built (World.make World.regular) World.one_torus)))
  /\ polyval 0 (polyder weird_coeffs 1) = fl 1.3.
Proof.
  split; [reflexivity|]. split; [vm_compute; reflexivity|].
  split; [vm_compute; left; reflexivity|].
  apply (default_transform_breaks_slopes
           (World.make World.regular) World.one_torus
           (built (World.make World.regular) World.one_torus)
           eq_refl ltac:(vm_compute; reflexivity) weird_coeffs
           ltac:(vm_compute; left; reflexivity)).
Defined.

(** C3: the two leftover branches fix the stored transformation, whatever
    the fit returns. *)
Theorem debug_branches_fix_transform ext cfg eng :
  init ext cfg = Ok eng ->
  (use_pointtransform cfg = false ->
   pt_coeffs (e_pt eng) = repeat weird_coeffs (length (e_internal_Es eng))
   /\ map this weird_coeffs = [0; 13 # 10; 0; (-3) # 10]%Q
   /\ polyval (fl 0.5) weird_coeffs <> fl 0.5)
  /\ (use_pointtransform cfg = true -> (1 < pt_deg cfg)%nat ->
      pt_coeffs (e_pt eng)
      = repeat (0 :: 1 :: repeat 0 (pt_deg cfg - 1)) (length (e_internal_Es eng)))
  /\ (forall lsq eng',
        init (with_leastsq ext lsq) cfg = Ok eng' ->
        pt_coeffs (e_pt eng') = pt_coeffs (e_pt eng)).
Proof.
  intros H. split; [|split].
  - intros Hu. split; [|split].
    + apply (init_no_fit ext cfg eng); [now rewrite Hu | assumption].
    + exact weird_coeffs_value.
    + intros E. apply (f_equal this) in E. vm_compute in E. discriminate.
  - intros Hu Hd. rewrite <- linear_coeffs_shape by lia.
    apply (init_fit ext cfg eng); [|assumption].
    rewrite Hu. simpl. now apply Nat.ltb_lt.
  - intros lsq eng' H'.
    assert (HE : e_internal_Es eng' = e_internal_Es eng).
    { apply init_stages in H. apply init_stages in H'.
      destruct H as (nd & fw & iso & pt & tb & Hnd & _ & _ & _ & _ & _ & _ & ->).
      destruct H' as (nd' & fw' & iso' & pt' & tb' & Hnd' & _ & _ & _ & _ & _ & _ & ->).
      simpl. change (setup_nodes (with_leastsq ext lsq) cfg)
        with (setup_nodes ext cfg) in Hnd'. congruence. }
    destruct (use_pointtransform cfg && (1 <? pt_deg cfg)%nat) eqn:Hb.
    + rewrite (init_fit _ _ _ Hb H), (init_fit _ _ _ Hb H'). now rewrite HE.
    + destruct (init_no_fit _ _ _ Hb H) as [-> _].
      destruct (init_no_fit _ _ _ Hb H') as [-> _]. now rewrite HE.
Qed.

Lemma debug_branches_fix_transform_witness :
  init (World.make World.regular) World.one_torus_pt
  = Ok (built (World.make World.regular) World.one_torus_pt)
  /\ pt_coeffs (e_pt (built (World.make World.regular) World.one_torus_pt))
     = repeat (0 :: 1 :: repeat 0 (7 - 1)) 1.
Proof.
  split.
  - vm_compute. reflexivity.
  - apply (proj1 (proj2 (debug_branches_fix_transform
                   (World.make World.regular) World.one_torus_pt
                   (built (World.make World.regular) World.one_torus_pt)
                   ltac:(vm_compute; reflexivity)))).
    + reflexivity.
    + simpl. lia.
Defined.

(** ** Looking a torus up *)

Lemma argmin_from_bound l : forall i best bv,
  (best < i)%nat -> (argmin_from i best bv l < i + length l)%nat.
Proof.
  induction l as [|x t IH]; simpl; intros i best bv H; [lia|].
  destruct (Qcltb x bv).
  - specialize (IH (S i) i x). lia.
  - specialize (IH (S i) best bv). lia.
Qed.

Lemma nanargmin_bound l k : nanargmin l = Some k -> (k < length l)%nat.
Proof.
  destruct l as [|x t]; simpl; [discriminate|].
  intros H; inversion H; subst.
  pose proof (argmin_from_bound t 1 0%nat x). lia.
Qed.

Lemma nth_Q_nth_error l i : (i < length l)%nat -> nth_error l i = Some (nth_Q l i).
Proof. intros H. unfold nth_Q. now apply nth_error_nth'. Qed.

(** An accepted torus matches both actions within [1e-10]; so the call
    raises when no stored torus does. *)
Lemma find_torus_accepts eng Ltab jr jphi jz i :
  find_torus eng Ltab jr jphi jz = Ok i ->
  exists ji Li,
    nth_error (e_jr eng) i = Some ji
    /\ nth_error Ltab i = Some Li
    /\ fabs (jr - ji) <= fl 1e-10
    /\ fabs (jz + fabs jphi - Li) <= fl 1e-10.
Proof.
  unfold find_torus. intros H. bind_inv H as k Hk.
  destruct (nanargmin _) as [k'|] eqn:E; simpl in Hk; [|discriminate].
  inversion Hk; subst k'; clear Hk.
  apply nanargmin_bound in E. rewrite length_map in E.
  destruct (Qcgtb _ _) eqn:E1; [discriminate|].
  bind_inv H as Li HL.
  destruct (nth_error Ltab k) as [Li'|] eqn:EL; simpl in HL; [|discriminate].
  inversion HL; subst Li'; clear HL.
  destruct (Qcgtb (fabs (jz + fabs jphi - Li)) _) eqn:E2; [discriminate|].
  inversion H; subst i; clear H.
  exists (nth_Q (e_jr eng) k), Li.
  split; [now apply nth_Q_nth_error|]. split; [exact EL|].
  unfold Qcgtb in E1, E2. apply Qcltb_false in E1. apply Qcltb_false in E2.
  split; assumption.
Qed.

Lemma find_torus_raises_without_match eng Ltab jr jphi jz :
  (forall i ji Li,
      nth_error (e_jr eng) i = Some ji -> nth_error Ltab i = Some Li ->
      ~ (fabs (jr - ji) <= fl 1e-10 /\ fabs (jz + fabs jphi - Li) <= fl 1e-10)) ->
  exists e, find_torus eng Ltab jr jphi jz = Raise e.
Proof.
  intros H. destruct (find_torus eng Ltab jr jphi jz) as [i|e] eqn:E; [|eauto].
  apply find_torus_accepts in E. destruct E as (ji & Li & H1 & H2 & H3 & H4).
  exfalso. eapply H; eauto.
Qed.

(** C6, at the input where the code leaves it: an engine holds two tori of
    equal radial action and angular momenta 1 and 2; asked for the second
    one (Jr = 1, Jphi = 2, Jz = 0), which matches a stored torus in both
    actions, both query functions raise the lookup error, because the
    search goes by Jr alone and stops at the first torus. *)
Theorem lookup_misses_matching_torus :
  init (World.make World.regular) World.two_tori
  = Ok (built (World.make World.regular) World.two_tori)
  /\ e_interp (built (World.make World.regular) World.two_tori) = false
  /\ matches (built (World.make World.regular) World.two_tori) 1 1 (fl 2) 0
  /\ (forall ar ap az point,
         _xvFreqs (World.make World.regular)
                  (built (World.make World.regular) World.two_tori)
                  1 (fl 2) 0 ar ap az point = Raise ValueError)
  /\ _Freqs (built (World.make World.regular) World.two_tori) 1 (fl 2) 0
     = Raise ValueError.
Proof.
  split; [vm_compute; reflexivity|].
  split; [vm_compute; reflexivity|].
  split.
  - exists (nth_Q (e_jr (built (World.make World.regular) World.two_tori)) 1),
      (fl 2.0).
    split; [vm_compute; reflexivity|]. split; [vm_compute; reflexivity|].
    split; vm_compute; discriminate.
  - split.
    + intros ar ap az point. unfold _xvFreqs.
      replace (locate (built (World.make World.regular) World.two_tori) 1 (fl 2) 0)
        with (@Raise (option found) ValueError) by (vm_compute; reflexivity).
      reflexivity.
    + vm_compute. reflexivity.
Qed.

(** C9: on an engine constructed with [setup_interp=True] every call of
    [_xvFreqs], [_evaluate] and [_Freqs] takes the branch that is [pass],
    binds no local and raises [UnboundLocalError] at the first local it
    reads, whatever the arguments. *)
Theorem interpolation_branch_is_unbound ext cfg eng :
  setup_interp cfg = true ->
  init ext cfg = Ok eng ->
  forall jr jphi jz,
    (forall angler anglephi anglez point,
        _xvFreqs ext eng jr jphi jz angler anglephi anglez point
        = Raise UnboundLocalError)
    /\ (forall angler anglephi anglez,
           _evaluate ext eng jr jphi jz angler anglephi anglez
           = Raise UnboundLocalError)
    /\ _Freqs eng jr jphi jz = Raise UnboundLocalError.
Proof.
  intros Hs H jr jphi jz.
  assert (Hi : e_interp eng = true).
  { apply init_stages in H.
    destruct H as (nd & fw & iso & pt & tb & _ & _ & _ & _ & _ & _ & _ & ->).
    exact Hs. }
  assert (Hx : forall angler anglephi anglez point,
             _xvFreqs ext eng jr jphi jz angler anglephi anglez point
             = Raise UnboundLocalError).
  { intros. unfold _xvFreqs, locate. rewrite Hi. reflexivity. }
  split; [exact Hx|]. split.
  - intros. unfold _evaluate. rewrite Hx. reflexivity.
  - unfold _Freqs. rewrite Hi. reflexivity.
Qed.

Lemma interpolation_branch_is_unbound_witness :
  setup_interp World.small_grid = true
  /\ init (World.make World.regular) World.small_grid
     = Ok (built (World.make World.regular) World.small_grid)
  /\ _Freqs (built (World.make World.regular) World.small_grid) 1 1 0
     = Raise UnboundLocalError.
Proof.
  split; [reflexivity|]. split; [vm_compute; reflexivity|].
  apply (interpolation_branch_is_unbound
           (World.make World.regular) World.small_grid
           (built (World.make World.regular) World.small_grid)
           eq_refl ltac:(vm_compute; reflexivity) 1 1 0).
Defined.

(** C10: whenever [_xvFreqs] (with or without the point transformation)
    or [_Freqs] returns, the azimuthal frequency returned is
    [sign(jphi)] times the vertical frequency returned: one of [Omegaz],
    [-Omegaz], or [0] when [jphi = 0]. *)
Theorem azimuthal_frequency_follows_sign ext eng jr jphi jz :
  (forall angler anglephi anglez point r,
      _xvFreqs ext eng jr jphi jz angler anglephi anglez point = Ok r ->
      out_Omegaphi r = sign jphi * out_Omegaz r
      /\ (out_Omegaphi r = out_Omegaz r
          \/ out_Omegaphi r = - out_Omegaz r
          \/ (jphi = 0 /\ out_Omegaphi r = 0)))
  /\ (forall Omegar Omegaphi Omegaz,
         _Freqs eng jr jphi jz = Ok (Omegar, Omegaphi, Omegaz) ->
         Omegaphi = sign jphi * Omegaz
         /\ (Omegaphi = Omegaz
             \/ Omegaphi = - Omegaz
             \/ (jphi = 0 /\ Omegaphi = 0))).
Proof.
  assert (S : forall p o : Qc, p = sign jphi * o ->
              p = o \/ p = - o \/ (jphi = 0 /\ p = 0)).
  { intros p o ->. destruct (sign_cases jphi o) as [[_ E]|[[_ E]|[Z E]]]; auto. }
  split.
  - intros angler anglephi anglez point r H. unfold _xvFreqs in H.
    bind_inv H as locals Hl. bind_inv H as f Hf.
    destruct (negb _); [discriminate|].
    inversion H; subst; clear H. simpl. split; [reflexivity|]. now apply S.
  - intros o_r ophi oz H. unfold _Freqs in H.
    bind_inv H as locals Hl. bind_inv H as p Hp. destruct p as [tO tz].
    inversion H; subst; clear H. split; [reflexivity|]. now apply S.
Qed.

Lemma azimuthal_frequency_follows_sign_witness :
  exists Omegar Omegaphi Omegaz,
    _Freqs (built (World.make World.regular) World.one_torus) 1 (- (1)) 0
    = Ok (Omegar, Omegaphi, Omegaz)
    /\ Omegaphi = sign (- (1)) * Omegaz.
Proof.
  destruct (_Freqs (built (World.make World.regular) World.one_torus) 1 (- (1)) 0)
    as [[[o_r ophi] oz]|e] eqn:E.
  - exists o_r, ophi, oz. split; [reflexivity|].
    exact (proj1 (proj2 (azimuthal_frequency_follows_sign
                    (World.make World.regular)
                    (built (World.make World.regular) World.one_torus)
                    1 (- (1)) 0) _ _ _ E)).
  - vm_compute in E. discriminate.
Defined.

(** ** The torus table *)

Lemma upd_length {A} i (v : A) l : length (upd i v l) = length l.
Proof. revert i; induction l; intros [|i]; simpl; auto. Qed.

Lemma nth_error_upd_eq {A} i (v : A) l :
  (i < length l)%nat -> nth_error (upd i v l) i = Some v.
Proof.
  revert i; induction l; intros [|i]; simpl; intros H; try lia; auto.
  apply IHl. lia.
Qed.

Lemma nth_error_upd_neq {A} i j (v : A) l :
  i <> j -> nth_error (upd i v l) j = nth_error l j.
Proof.
  revert i j; induction l; intros [|i] [|j]; simpl; intros H; try congruence; auto.
Qed.

Lemma linspace_length a b n : length (linspace a b n) = n.
Proof.
  destruct n as [|[|n]]; simpl; try reflexivity.
  rewrite length_app, length_map, length_seq. simpl. lia.
Qed.

Lemma thetaa_length cfg : length (thetaa cfg) = nta cfg.
Proof. apply linspace_length. Qed.

Lemma nth_error_seq_lt a n j : (j < n)%nat -> nth_error (seq a n) j = Some (a + j)%nat.
Proof.
  intros H. rewrite nth_error_nth' with (d := 0%nat) by now rewrite length_seq.
  now rewrite seq_nth.
Qed.

Section TableFacts.
Variable ext : Externals.
Variable cfg : config.

Lemma first_unconv_off j ta theta :
  j = 0%nat \/ (nta cfg / 2 <= j)%nat -> first_unconv cfg j ta theta = false.
Proof.
  unfold first_unconv. intros [->|H].
  - reflexivity.
  - assert (E : (j <? nta cfg / 2)%nat = false) by now apply Nat.ltb_ge.
    rewrite E. now rewrite andb_false_r.
Qed.

Lemma newton_node_off c dr theta n :
  nd_unconv n = false -> newton_node ext cfg c dr theta n = n.
Proof. unfold newton_node. now intros ->. Qed.

Lemma bisect_node_off c dr theta n :
  nd_unconv n = false -> bisect_node ext cfg c dr theta n = n.
Proof. unfold bisect_node. now intros ->. Qed.

Lemma first_row_node c j :
  (j < nta cfg)%nat ->
  exists theta r,
    nth_error (rw_nodes (first_row ext cfg c)) j
    = Some {| nd_r := r; nd_ta := _anglera ext c r false;
              nd_unconv := first_unconv cfg j (_anglera ext c r false) theta;
              nd_tryr_min := 0 |}
    /\ nth_error
         (upd (nta cfg / 2) (t_ptrap c)
              (upd 0 (t_ptrperi c)
                   (map (first_guess cfg c (scan_angles ext cfg c)) (thetaa cfg))))
         j = Some r.
Proof.
  intros Hj. unfold first_row. cbn [rw_nodes].
  set (rs := upd _ _ _).
  assert (Hrs : length rs = nta cfg).
  { unfold rs. now rewrite !upd_length, length_map, thetaa_length. }
  destruct (nth_error rs j) as [r|] eqn:Er.
  2:{ apply nth_error_None in Er. lia. }
  destruct (nth_error (thetaa cfg) j) as [theta|] eqn:Et.
  2:{ apply nth_error_None in Et. rewrite thetaa_length in Et. lia. }
  exists theta, r. split; [|reflexivity].
  rewrite nth_error_map.
  rewrite (nth_error_combine _ _ j (j, theta) r).
  - reflexivity.
  - apply nth_error_combine; [|assumption].
    rewrite nth_error_seq_lt by now rewrite thetaa_length. reflexivity.
  - assumption.
Qed.

Lemma first_row_length c : length (rw_nodes (first_row ext cfg c)) = nta cfg.
Proof.
  unfold first_row. cbn [rw_nodes].
  rewrite length_map, !length_combine, length_seq, !upd_length, length_map,
    thetaa_length. lia.
Qed.

Lemma first_row_table_row c :
  nta cfg <> 0%nat -> table_row cfg c (first_row ext cfg c).
Proof.
  intros Hn.
  assert (Hm : (nta cfg / 2 < nta cfg)%nat) by (apply Nat.div_lt; lia).
  split; [reflexivity|]. split; [apply first_row_length|].
  split; [|split].
  - destruct (first_row_node c 0) as (theta & r & Hnode & Hr); [lia|].
    eexists; split; [exact Hnode|]. cbn [nd_unconv nd_r]. split.
    + apply first_unconv_off. now left.
    + destruct (nta cfg / 2 =? 0)%nat eqn:E.
      * apply Nat.eqb_eq in E. rewrite E in Hr.
        rewrite nth_error_upd_eq in Hr; [congruence|].
        rewrite upd_length, length_map, thetaa_length. lia.
      * apply Nat.eqb_neq in E. rewrite nth_error_upd_neq in Hr by assumption.
        rewrite nth_error_upd_eq in Hr; [congruence|].
        rewrite length_map, thetaa_length. lia.
  - destruct (first_row_node c (nta cfg / 2)) as (theta & r & Hnode & Hr);
      [lia|].
    eexists; split; [exact Hnode|]. cbn [nd_unconv nd_r]. split.
    + apply first_unconv_off. right. lia.
    + rewrite nth_error_upd_eq in Hr; [congruence|].
      rewrite upd_length, length_map, thetaa_length. lia.
  - intros j n Hj Hn'.
    assert (Hl : (j < nta cfg)%nat).
    { rewrite <- (first_row_length c). apply nth_error_Some. congruence. }
    destruct (first_row_node c j Hl) as (theta & r & Hnode & _).
    rewrite Hnode in Hn'. inversion Hn'; subst; clear Hn'. cbn [nd_unconv].
    apply first_unconv_off. now right.
Qed.

(** A pass over the nodes leaves the converged ones alone. *)
Lemma on_nodes_off f rw j n :
  (forall c dr theta m, nd_unconv m = false -> f c dr theta m = m) ->
  length (rw_nodes rw) = nta cfg ->
  nth_error (rw_nodes rw) j = Some n -> nd_unconv n = false ->
  nth_error (rw_nodes (on_nodes cfg f rw)) j = Some n.
Proof.
  intros Hf Hl Hn Hu. unfold on_nodes. cbn [rw_nodes].
  destruct (nth_error (thetaa cfg) j) as [theta|] eqn:Et.
  2:{ apply nth_error_None in Et. rewrite thetaa_length in Et.
      assert (j < length (rw_nodes rw))%nat by (apply nth_error_Some; congruence).
      lia. }
  rewrite (nth_error_zipWith _ _ _ _ _ _ Et Hn). now rewrite Hf.
Qed.

Lemma on_nodes_length f rw :
  length (rw_nodes rw) = nta cfg ->
  length (rw_nodes (on_nodes cfg f rw)) = nta cfg.
Proof.
  intros H. unfold on_nodes. cbn [rw_nodes].
  rewrite zipWith_length, thetaa_length, H. lia.
Qed.

Lemma on_nodes_unconv_from f rw j n' :
  (forall c dr theta m, nd_unconv m = false -> f c dr theta m = m) ->
  length (rw_nodes rw) = nta cfg ->
  (forall n, nth_error (rw_nodes rw) j = Some n -> nd_unconv n = false) ->
  nth_error (rw_nodes (on_nodes cfg f rw)) j = Some n' -> nd_unconv n' = false.
Proof.
  intros Hf Hl Hall Hn'. unfold on_nodes in Hn'. cbn [rw_nodes] in Hn'.
  apply nth_error_zipWith_inv in Hn'. destruct Hn' as (theta & n & _ & Hn & ->).
  rewrite Hf; eauto.
Qed.

Lemma on_nodes_table_row f c rw :
  (forall c dr theta m, nd_unconv m = false -> f c dr theta m = m) ->
  table_row cfg c rw -> table_row cfg c (on_nodes cfg f rw).
Proof.
  intros Hf (Ht & Hl & (n0 & H0 & U0 & R0) & (nm & Hm & Um & Rm) & Hhalf).
  split; [exact Ht|]. split; [now apply on_nodes_length|].
  split; [|split].
  - exists n0. split; [now apply on_nodes_off|]. auto.
  - exists nm. split; [now apply on_nodes_off|]. auto.
  - intros j n' Hj Hn'. eapply on_nodes_unconv_from; eauto.
Qed.

Lemma bisect_start_table_row d c rw :
  table_row cfg c rw -> table_row cfg c (bisect_start cfg d rw).
Proof.
  intros (Ht & Hl & (n0 & H0 & U0 & R0) & (nm & Hm & Um & Rm) & Hhalf).
  assert (Hnode : forall j n, nth_error (rw_nodes rw) j = Some n ->
            exists n', nth_error (rw_nodes (bisect_start cfg d rw)) j = Some n'
                       /\ nd_unconv n' = nd_unconv n /\ nd_r n' = nd_r n).
  { intros j n Hn. unfold bisect_start. cbn [rw_nodes].
    destruct (nth_error (thetaa cfg) j) as [theta|] eqn:Et.
    2:{ apply nth_error_None in Et. rewrite thetaa_length in Et.
        assert (j < length (rw_nodes rw))%nat by (apply nth_error_Some; congruence).
        lia. }
    eexists. split; [apply (nth_error_zipWith _ _ _ _ _ _ Et Hn)|].
    split; reflexivity. }
  split; [exact Ht|]. split.
  { unfold bisect_start. cbn [rw_nodes].
    rewrite zipWith_length, thetaa_length, Hl. lia. }
  split; [|split].
  - destruct (Hnode _ _ H0) as (n' & H' & U' & R').
    exists n'. repeat split; congruence.
  - destruct (Hnode _ _ Hm) as (n' & H' & U' & R').
    exists n'. repeat split; congruence.
  - intros j n' Hj Hn'. unfold bisect_start in Hn'. cbn [rw_nodes] in Hn'.
    apply nth_error_zipWith_inv in Hn'. destruct Hn' as (theta & n & _ & Hn & ->).
    cbn [nd_unconv]. eauto.
Qed.

(** The loops keep a property of the rows that each pass keeps. *)
Lemma Forall2_map_r {A B} (R : A -> B -> Prop) (f : B -> B) l g :
  (forall a b, R a b -> R a (f b)) -> Forall2 R l g -> Forall2 R l (map f g).
Proof. intros Hf H. induction H; simpl; constructor; auto. Qed.

Lemma newton_loop_keeps (R : torus -> row -> Prop) tori :
  (forall c rw, R c rw -> R c (on_nodes cfg (newton_node ext cfg) rw)) ->
  forall k g, Forall2 R tori g -> Forall2 R tori (fst (newton_loop ext cfg k g)).
Proof.
  intros HR. induction k as [|k IH]; intros g Hg; simpl.
  - now apply Forall2_map_r.
  - destruct (all_converged _); simpl.
    + now apply Forall2_map_r.
    + apply IH. now apply Forall2_map_r.
Qed.

Lemma bisect_loop_keeps (R : torus -> row -> Prop) tori :
  (forall c rw, R c rw -> R c (on_nodes cfg (bisect_node ext cfg) (halve rw))) ->
  forall k g, Forall2 R tori g -> Forall2 R tori (fst (bisect_loop ext cfg k g)).
Proof.
  intros HR.
  assert (HP : forall g, Forall2 R tori g -> Forall2 R tori (bisect_pass ext cfg g)).
  { intros g Hg. unfold bisect_pass. now apply Forall2_map_r. }
  induction k as [|k IH]; intros g Hg; simpl.
  - destruct (all_converged _); simpl; now apply HP.
  - destruct (all_converged _); simpl; [now apply HP|].
    apply IH. now apply HP.
Qed.

End TableFacts.

Lemma firstn_In {A} n (l : list A) x : In x (firstn n l) -> In x l.
Proof. intros H. rewrite <- (firstn_skipn n l). apply in_or_app. now left. Qed.

Lemma skipn_In {A} n (l : list A) x : In x (skipn n l) -> In x l.
Proof. intros H. rewrite <- (firstn_skipn n l). apply in_or_app. now right. Qed.

Lemma nth_error_firstn_lt {A} n (l : list A) i :
  (i < n)%nat -> nth_error (firstn n l) i = nth_error l i.
Proof.
  intros H. rewrite nth_error_firstn.
  apply Nat.ltb_lt in H. now rewrite H.
Qed.

Section Reflect.
Variable cfg : config.
Variable A : Type.

Lemma reflect_shape (l res : list A) :
  reflect cfg l = Ok res ->
  exists tail_, res = firstn (nta cfg / 2 + 1) l ++ tail_
                /\ length tail_ = (length l - (nta cfg / 2 + 1))%nat
                /\ (forall x, In x tail_ -> In x l)
                /\ ((length (skipn 1 (firstn (nta cfg / 2) l))
                     = length l - (nta cfg / 2 + 1))%nat ->
                    tail_ = rev (skipn 1 (firstn (nta cfg / 2) l))).
Proof.
  unfold reflect. set (m := (nta cfg / 2)%nat).
  set (src := rev (skipn 1 (firstn m l))).
  assert (Hsub : forall x, In x src -> In x l).
  { intros x Hx. unfold src in Hx. apply in_rev in Hx.
    apply skipn_In in Hx. now apply firstn_In in Hx. }
  destruct (length src =? length l - (m + 1))%nat eqn:E.
  - apply Nat.eqb_eq in E. intros H; inversion H; subst; clear H.
    exists src. repeat split; auto.
  - apply Nat.eqb_neq in E. destruct src as [|x [|y t]] eqn:Es; try discriminate.
    intros H; inversion H; subst; clear H.
    exists (repeat x (length l - (m + 1))). split; [reflexivity|].
    split; [apply repeat_length|]. split.
    + intros z Hz. apply repeat_spec in Hz. subst z. apply Hsub. now left.
    + intros Hl. exfalso. apply E.
      rewrite <- Hl. change [x] with (rev [x]) in Es. unfold src in Es.
      rewrite <- (length_rev (skipn 1 (firstn m l))). now rewrite Es.
Qed.

Lemma reflect_length (l res : list A) :
  length l = nta cfg -> nta cfg <> 0%nat ->
  reflect cfg l = Ok res -> length res = nta cfg.
Proof.
  intros Hl Hn H. apply reflect_shape in H.
  destruct H as (t & -> & Ht & _).
  assert (nta cfg / 2 < nta cfg)%nat by (apply Nat.div_lt; lia).
  rewrite length_app, length_firstn, Ht, Hl. lia.
Qed.



Lemma reflect_mirror (l res : list A) :
  length l = nta cfg -> Nat.even (nta cfg) = true -> nta cfg <> 0%nat ->
  reflect cfg l = Ok res ->
  forall j, (1 <= j < nta cfg)%nat ->
            nth_error res (nta cfg - j) = nth_error res j.
Proof.
  intros Hl He Hn H.
  apply Nat.even_spec in He. destruct He as [m Hm].
  assert (Hdiv : (nta cfg / 2 = m)%nat).
  { rewrite Hm. rewrite Nat.mul_comm. apply Nat.div_mul. lia. }
  apply reflect_shape in H. destruct H as (t & -> & _ & _ & Ht).
  rewrite Hdiv in *.
  assert (Hs : length (skipn 1 (firstn m l)) = (m - 1)%nat).
  { rewrite length_skipn, length_firstn. lia. }
  rewrite Ht by (rewrite Hs; lia). clear Ht.
  assert (low : forall j, (1 <= j < m)%nat ->
            nth_error (firstn (m + 1) l ++ rev (skipn 1 (firstn m l))) (nta cfg - j)
            = nth_error (firstn (m + 1) l ++ rev (skipn 1 (firstn m l))) j).
  { intros j Hj.
    rewrite nth_error_app2 by (rewrite length_firstn; lia).
    rewrite (nth_error_app1 _ _ (n := j)) by (rewrite length_firstn; lia).
    rewrite length_firstn.
    replace (nta cfg - j - Nat.min (m + 1) (length l))%nat with (m - 1 - j)%nat by lia.
    rewrite nth_error_firstn_lt by lia.
    destruct l as [|d l']; [simpl in Hl; lia|].
    rewrite !nth_error_nth' with (d := d);
      try (rewrite ?length_rev, ?Hs; simpl in *; lia).
    f_equal. rewrite rev_nth by (rewrite Hs; lia). rewrite Hs.
    replace (m - 1 - S (m - 1 - j))%nat with (j - 1)%nat by lia.
    rewrite nth_skipn.
    replace (1 + (j - 1))%nat with j by lia.
    rewrite <- (firstn_skipn m (d :: l')) at 2.
    rewrite app_nth1 by (rewrite length_firstn; simpl in *; lia). reflexivity. }
  intros j Hj.
  destruct (Nat.lt_trichotomy j m) as [Hlt|[Heq|Hgt]].
  - apply low. lia.
  - subst j. f_equal. lia.
  - specialize (low (nta cfg - j)%nat).
    replace (nta cfg - (nta cfg - j))%nat with j in low by lia.
    symmetry. apply low. lia.
Qed.

End Reflect.

Section Create.
Variable ext : Externals.
Variable cfg : config.

Lemma solve_nodes_rows tori :
  nta cfg <> 0%nat ->
  Forall2 (table_row cfg) tori (fst (solve_nodes ext cfg tori)).
Proof.
  intros Hn. unfold solve_nodes.
  set (g0 := map (first_row ext cfg) tori).
  assert (H0 : Forall2 (table_row cfg) tori g0).
  { unfold g0. clear -Hn. induction tori; simpl; constructor; auto.
    apply first_row_table_row. exact Hn. }
  assert (HN : forall c rw, table_row cfg c rw ->
                 table_row cfg c (on_nodes cfg (newton_node ext cfg) rw)).
  { intros. apply on_nodes_table_row; auto. intros. now apply newton_node_off. }
  assert (HB : forall c rw, table_row cfg c rw ->
                 table_row cfg c (on_nodes cfg (bisect_node ext cfg) (halve rw))).
  { intros. apply on_nodes_table_row; auto. intros. now apply bisect_node_off. }
  set (p1 := if bisect cfg then (g0, false) else newton_loop ext cfg (maxiter cfg) g0).
  assert (H1 : Forall2 (table_row cfg) tori (fst p1)).
  { unfold p1. destruct (bisect cfg); [exact H0|]. now apply newton_loop_keeps. }
  destruct p1 as [g1 over]. cbn [fst] in H1.
  set (p2 := if bisect cfg || over then _ else _).
  assert (H2 : Forall2 (table_row cfg) tori (fst p2)).
  { unfold p2. destruct (bisect cfg || over); [|exact H1].
    pose proof (bisect_loop_keeps ext cfg (table_row cfg) tori HB (maxiter cfg)
                  (map (bisect_start cfg (residual_max cfg g1)) g1)) as K.
    destruct (bisect_loop _ _ _ _) as [g u]. cbn [fst] in *. apply K.
    apply Forall2_map_r; [|exact H1]. intros. now apply bisect_start_table_row. }
  destruct p2 as [g2 w2]. exact H2.
Qed.

Lemma create_rgrid_rows tori tb :
  _create_rgrid ext cfg tori = Ok tb ->
  mapM (fun rw => reflect cfg (map nd_r (rw_nodes rw)))
       (fst (solve_nodes ext cfg tori)) = Ok (tb_rgrid tb)
  /\ tb_warnings tb = snd (solve_nodes ext cfg tori).
Proof.
  unfold _create_rgrid. destruct tori as [|c0 t0]; [discriminate|].
  destruct (solve_nodes ext cfg (c0 :: t0)) as [g2 ws]. intros H.
  bind_inv H as rgrid Hr. inversion H; subst; clear H. auto.
Qed.

End Create.

Lemma tori_from_nth Es Ls fw iso pt : forall k i c,
  nth_error (tori_from k Es Ls fw iso pt) i = Some c ->
  t_rperi c = nth_Q (f_rperi fw) (k + i)
  /\ t_rap c = nth_Q (f_rap fw) (k + i)
  /\ t_ptrperi c = nth_Q (pt_rperi pt) (k + i)
  /\ t_ptrap c = nth_Q (pt_rap pt) (k + i)
  /\ t_Omegar c = nth_Q (f_Omegar fw) (k + i).
Proof.
  revert Ls; induction Es as [|e es IH]; intros [|l ls] k i c; simpl;
    try (destruct i; discriminate).
  destruct i as [|i]; simpl.
  - intros H; inversion H; subst; clear H. cbn. rewrite Nat.add_0_r. auto.
  - intros H. apply IH in H. now rewrite Nat.add_succ_r.
Qed.

Lemma Forall2_nth_error {A B} (R : A -> B -> Prop) l g :
  Forall2 R l g ->
  forall i b, nth_error g i = Some b -> exists a, nth_error l i = Some a /\ R a b.
Proof.
  induction 1; intros [|i] b' Hb; simpl in *; try discriminate.
  - inversion Hb; subst. eauto.
  - eauto.
Qed.

Lemma mapM_nth_error_inv {A B} (f : A -> result B) l l' i b :
  mapM f l = Ok l' -> nth_error l' i = Some b ->
  exists a, nth_error l i = Some a /\ f a = Ok b.
Proof.
  intros H Hb. destruct (mapM_ok _ _ _ H) as [Hl Hn].
  destruct (nth_error l i) as [a|] eqn:Ea.
  - destruct (Hn _ _ Ea) as (b' & Hb' & Hf). exists a. split; [reflexivity|].
    congruence.
  - apply nth_error_None in Ea. rewrite <- Hl in Ea.
    apply nth_error_None in Ea. congruence.
Qed.

(** Every row of the stored table comes from a row of nodes of its torus
    by the reflection. *)
Lemma init_rgrid_row ext cfg eng i rw :
  init ext cfg = Ok eng ->
  nth_error (e_rgrid eng) i = Some rw ->
  exists c nodes,
    table_row cfg c nodes
    /\ reflect cfg (map nd_r (rw_nodes nodes)) = Ok rw
    /\ t_rperi c = nth_Q (e_rperi eng) i
    /\ t_rap c = nth_Q (e_rap eng) i
    /\ t_ptrperi c = nth_Q (pt_rperi (e_pt eng)) i
    /\ t_ptrap c = nth_Q (pt_rap (e_pt eng)) i.
Proof.
  intros H Hrw. apply init_stages in H.
  destruct H as (nd & fw & iso & pt & tb & _ & _ & _ & _ & Hn & _ & Htb & ->).
  cbn in Hrw |- *.
  destruct (create_rgrid_rows ext cfg _ _ Htb) as (Hm & _).
  pose proof (solve_nodes_rows ext cfg (init_tori nd fw iso pt) Hn) as Hg.
  destruct (mapM_nth_error_inv _ _ _ _ _ Hm Hrw) as (nodes & Hnodes & Hre).
  destruct (Forall2_nth_error _ _ _ Hg _ _ Hnodes) as (c & Hc & Hrow).
  exists c, nodes. split; [exact Hrow|]. split; [exact Hre|].
  unfold init_tori in Hc. apply tori_from_nth in Hc. simpl in Hc. tauto.
Qed.

Lemma linspace_SS a b n :
  linspace a b (S (S n))
  = map (fun j => of_nat j * ((b - a) / of_nat (S n)) + a) (seq 0 (S n)) ++ [b].
Proof. reflexivity. Qed.




Section Range.
Variable ext : Externals.
Variable cfg : config.







End Range.

Section Solve.
Variable ext : Externals.
Variable cfg : config.








End Solve.


(** ** The angle grid *)

Lemma nth_map_seq {A} (f : nat -> A) n j d :
  (j < n)%nat -> nth j (map f (seq 0 n)) d = f j.
Proof.
  intros H. rewrite nth_indep with (d' := f 0%nat)
    by (rewrite length_map, length_seq; lia).
  rewrite map_nth, seq_nth by lia. reflexivity.
Qed.

Lemma thetaa_nth cfg j :
  (j < nta cfg)%nat ->
  nth_Q (thetaa cfg) j = fl 2.0 * pi * of_nat j / of_nat (nta cfg).
Proof.
  unfold thetaa, nth_Q. destruct (nta cfg) as [|[|n]]; intros Hj.
  - lia.
  - assert (j = 0)%nat by lia. subst j. simpl.
    rewrite fl_0, of_nat_0. field. apply of_nat_pos. lia.
  - rewrite linspace_SS.
    assert (HN : of_nat (S (S n)) <> 0) by (apply of_nat_pos; lia).
    assert (HN1 : of_nat (S n) <> 0) by (apply of_nat_pos; lia).
    destruct (Nat.eq_dec j (S n)) as [->|Hne].
    + rewrite app_nth2 by (rewrite length_map, length_seq; lia).
      rewrite length_map, length_seq, Nat.sub_diag. simpl nth.
      rewrite fl_1. rewrite (of_nat_S (S n)) in *. field. exact HN.
    + rewrite app_nth1 by (rewrite length_map, length_seq; lia).
      rewrite nth_map_seq by lia.
      rewrite fl_0, fl_1. rewrite (of_nat_S (S n)) in *. field. auto.
Qed.

Lemma thetaa_mirror cfg j :
  (1 <= j < nta cfg)%nat ->
  nth_Q (thetaa cfg) (nta cfg - j) = fl 2.0 * pi - nth_Q (thetaa cfg) j.
Proof.
  intros Hj. rewrite !thetaa_nth by lia.
  assert (HN : of_nat (nta cfg) <> 0) by (apply of_nat_pos; lia).
  assert (E : of_nat (nta cfg) = of_nat (nta cfg - j) + of_nat j).
  { rewrite <- of_nat_add. f_equal. lia. }
  rewrite E in *. field. exact HN.
Qed.


Lemma init_fields ext cfg eng :
  init ext cfg = Ok eng ->
  e_nta eng = nta cfg /\ e_thetaa eng = thetaa cfg /\ nta cfg <> 0%nat
  /\ e_interp eng = setup_interp cfg.
Proof.
  intros H. apply init_stages in H.
  destruct H as (nd & fw & iso & pt & tb & _ & _ & _ & _ & Hn & _ & _ & ->).
  cbn. auto.
Qed.

Lemma table_row_radii cfg c nodes :
  table_row cfg c nodes -> length (map nd_r (rw_nodes nodes)) = nta cfg.
Proof. intros (_ & Hl & _). now rewrite length_map. Qed.


(** ** The angles [0] and [pi] *)














(** ** Odd numbers of angles *)

Lemma reflect_odd {A} cfg (l : list A) :
  length l = nta cfg ->
  Nat.odd (nta cfg) = true -> nta cfg <> 1%nat -> nta cfg <> 5%nat ->
  reflect cfg l = Raise ValueError.
Proof.
  intros Hl Ho H1 H5. apply Nat.odd_spec in Ho. destruct Ho as [k Hk].
  assert (Hm : (nta cfg / 2 = k)%nat).
  { rewrite Hk. symmetry. apply Nat.div_unique with 1%nat; lia. }
  unfold reflect. rewrite Hm.
  set (src := rev (skipn 1 (firstn k l))).
  assert (Hs : length src = (k - 1)%nat).
  { unfold src. rewrite length_rev, length_skipn, length_firstn. lia. }
  assert (E : (length src =? length l - (k + 1))%nat = false).
  { apply Nat.eqb_neq. lia. }
  rewrite E. destruct src as [|x [|y t]]; try reflexivity.
  simpl in Hs. lia.
Qed.

(** An odd number of angles other than 1 and 5 cannot be built: the slice
    assignment of the reflection raises [ValueError]. *)
Lemma odd_angle_counts_are_rejected ext cfg :
  Nat.odd (nta cfg) = true -> nta cfg <> 1%nat -> nta cfg <> 5%nat ->
  (forall tori, tori <> [] -> _create_rgrid ext cfg tori = Raise ValueError)
  /\ (forall eng, init ext cfg <> Ok eng).
Proof.
  intros Ho H1 H5.
  assert (Hn : nta cfg <> 0%nat) by (intros E; rewrite E in Ho; discriminate).
  assert (HR : forall tori, tori <> [] ->
                 _create_rgrid ext cfg tori = Raise ValueError).
  { intros tori Ht.
    pose proof (solve_nodes_rows ext cfg tori Hn) as Hrows.
    unfold _create_rgrid. destruct tori as [|c0 t0]; [congruence|].
    destruct (solve_nodes ext cfg (c0 :: t0)) as [g2 ws]. cbn [fst] in Hrows.
    inversion Hrows as [|c rw t g Hrow Hrest]; subst. cbn [mapM].
    rewrite (reflect_odd cfg (map nd_r (rw_nodes rw))); auto.
    rewrite length_map. apply Hrow. }
  split; [exact HR|].
  intros eng H. apply init_stages in H.
  destruct H as (nd & fw & iso & pt & tb & _ & _ & _ & _ & _ & _ & Htb & _).
  destruct (init_tori nd fw iso pt) as [|c0 t0] eqn:Et.
  - discriminate.
  - rewrite HR in Htb by congruence. discriminate.
Qed.

(** For an even number of angles the table is its own mirror image, node
    by node and angle by angle, and its second half is never in the mask
    of the root-finder. *)
Lemma even_table_is_mirrored ext cfg eng :
  Nat.even (nta cfg) = true ->
  init ext cfg = Ok eng ->
  mirrored eng
  /\ (forall j, (1 <= j < nta cfg)%nat ->
                nth_Q (e_thetaa eng) (nta cfg - j)
                = fl 2.0 * pi - nth_Q (e_thetaa eng) j)
  /\ (forall j ta theta, (nta cfg / 2 <= j)%nat ->
                         first_unconv cfg j ta theta = false)
  /\ (forall c dr theta n, nd_unconv n = false ->
                           newton_node ext cfg c dr theta n = n
                           /\ bisect_node ext cfg c dr theta n = n).
Proof.
  intros He H. destruct (init_fields _ _ _ H) as (Hnta & Hth & Hn & _).
  split; [|split; [|split]].
  - intros i rw Hrw j Hj. rewrite Hnta in *.
    destruct (init_rgrid_row _ _ _ _ _ H Hrw) as (c & nodes & Hrow & Hre & _).
    eapply reflect_mirror; eauto. now apply table_row_radii with c.
  - intros j Hj. rewrite Hth. now apply thetaa_mirror.
  - intros j ta theta Hj. apply first_unconv_off. now right.
  - intros c dr theta n Hu. split;
      [now apply newton_node_off | now apply bisect_node_off].
Qed.

Lemma even_table_is_mirrored_witness :
  Nat.even (nta World.one_torus) = true
  /\ init (World.make World.regular) World.one_torus
     = Ok (built (World.make World.regular) World.one_torus)
  /\ mirrored (built (World.make World.regular) World.one_torus).
Proof.
  split; [reflexivity|]. split; [vm_compute; reflexivity|].
  apply (even_table_is_mirrored (World.make World.regular) World.one_torus
           (built (World.make World.regular) World.one_torus)
           eq_refl ltac:(vm_compute; reflexivity)).
Defined.


Lemma this_inj (a b : Qc) : this a = this b -> a = b.
Proof. intros H. apply Qc_is_canon. rewrite H. reflexivity. Qed.

Lemma map_this_inj (l l' : list Qc) : map this l = map this l' -> l = l'.
Proof.
  revert l'; induction l as [|a l IH]; intros [|b l'] H; simpl in H;
    try discriminate; [reflexivity|].
  inversion H. f_equal; [now apply this_inj | now apply IH].
Qed.

Lemma map_map_this_inj (t t' : list (list Qc)) :
  map (map this) t = map (map this) t' -> t = t'.
Proof.
  revert t'; induction t as [|a t IH]; intros [|b t'] H; simpl in H;
    try discriminate; [reflexivity|].
  inversion H. f_equal; [now apply map_this_inj | now apply IH].
Qed.

(** C5, at the input where the code leaves it: with five angles the
    construction succeeds and stores the row [1, 1.4, 2, 1.4, 1.4].  The
    slice assignment that fills the second half from the first has one
    source column for two target columns and repeats it.  The table holds
    the radius 2 at the grid angle [0.8 pi] and the radius 1.4 at the grid
    angle [2 pi - 0.8 pi], so it is not its own mirror image; and the
    radius forced at node [nta // 2], the apocentre, stands at an angle
    that is not [pi]. *)
Theorem mirror_breaks_at_five_angles :
  init (World.make World.regular) World.five_angles
  = Ok (built (World.make World.regular) World.five_angles)
  /\ e_rgrid (built (World.make World.regular) World.five_angles)
     = [[fl 1; fl 1.4; fl 2; fl 1.4; fl 1.4]]
  /\ radius_at (built (World.make World.regular) World.five_angles) 0
               (fl 0.8 * pi) (fl 2)
  /\ radius_at (built (World.make World.regular) World.five_angles) 0
               (fl 2.0 * pi - fl 0.8 * pi) (fl 1.4)
  /\ fl 2 <> fl 1.4
  /\ nth_Q (e_rap (built (World.make World.regular) World.five_angles)) 0 = fl 2
  /\ fl 0.8 * pi <> pi
  /\ ~ mirrored (built (World.make World.regular) World.five_angles).
Proof.
  assert (Hg : e_rgrid (built (World.make World.regular) World.five_angles)
               = [[fl 1; fl 1.4; fl 2; fl 1.4; fl 1.4]]).
  { apply map_map_this_inj. vm_compute. reflexivity. }
  assert (Ht : e_thetaa (built (World.make World.regular) World.five_angles)
               = [0; fl 0.4 * pi; fl 0.8 * pi;
                  fl 2.0 * pi - fl 0.8 * pi; fl 2.0 * pi - fl 0.4 * pi]).
  { apply map_this_inj. vm_compute. reflexivity. }
  split; [vm_compute; reflexivity|]. split; [exact Hg|].
  split.
  { exists 2%nat, [fl 1; fl 1.4; fl 2; fl 1.4; fl 1.4].
    rewrite Hg, Ht. repeat split. }
  split.
  { exists 3%nat, [fl 1; fl 1.4; fl 2; fl 1.4; fl 1.4].
    rewrite Hg, Ht. repeat split. }
  split.
  { intros C. apply (f_equal this) in C. vm_compute in C. discriminate. }
  split.
  { apply this_inj. vm_compute. reflexivity. }
  split.
  { intros C. apply (f_equal this) in C. vm_compute in C. discriminate. }
  intros H.
  specialize (H 0%nat [fl 1; fl 1.4; fl 2; fl 1.4; fl 1.4]).
  rewrite Hg in H. specialize (H eq_refl 2%nat ltac:(vm_compute; lia)).
  apply (f_equal (option_map this)) in H. vm_compute in H. discriminate.
Qed.

(** ** The ends of the table *)







(** ** One row per torus, one column per angle *)

Lemma length_concat_const {A} (l : list (list A)) k :
  (forall x, In x l -> length x = k) -> length (concat l) = (length l * k)%nat.
Proof.
  induction l as [|x t IH]; simpl; intros H; [reflexivity|].
  rewrite length_app, IH, (H x) by auto. lia.
Qed.

Lemma setup_nodes_lengths ext cfg nd :
  setup_nodes ext cfg = Ok nd ->
  length (n_internal_Ls nd) = length (n_internal_Es nd).
Proof.
  unfold setup_nodes. destruct (negb (setup_interp cfg)).
  - destruct (length (Es cfg) =? length (Ls cfg))%nat eqn:E; [|discriminate].
    apply Nat.eqb_eq in E. intros H; inversion H; subst; simpl. congruence.
  - set (gLs := linspace _ _ _). destruct gLs as [|g0 gt] eqn:Eg; [discriminate|].
    rewrite <- Eg. clear Eg g0 gt.
    intros H; inversion H; subst; clear H. cbn [n_internal_Ls n_internal_Es].
    rewrite (length_concat_const _ (nE cfg)), (length_concat_const _ (nE cfg)).
    + rewrite length_map, !zipWith_length, !length_map. lia.
    + intros x Hx. unfold zipWith in Hx. apply in_map_iff in Hx.
      destruct Hx as (p & <- & _). now rewrite length_map, linspace_length.
    + intros x Hx. apply in_map_iff in Hx. destruct Hx as (l & <- & _).
      apply repeat_length.
Qed.

Lemma forward_lengths ext cfg nd fw :
  setup_nodes ext cfg = Ok nd -> forward_actions ext cfg nd = Ok fw ->
  length (f_jr fw) = length (n_internal_Es nd)
  /\ length (f_Omegar fw) = length (n_internal_Es nd)
  /\ length (f_Omegaz fw) = length (n_internal_Es nd).
Proof.
  intros Hnd H. apply setup_nodes_lengths in Hnd.
  unfold forward_actions in H. bind_inv H as rls Hrls.
  apply mapM_ok in Hrls. destruct Hrls as [Hrls _].
  bind_inv H as vrls Hv.
  assert (Hvl : length vrls = length (n_internal_Es nd)).
  { destruct (setup_interp cfg).
    - destruct (n_nE nd); [discriminate|]. inversion Hv; subst; clear Hv.
      unfold zero_stride. rewrite zipWith_length, length_seq, length_map,
        !length_combine, length_map. lia.
    - inversion Hv; subst; clear Hv.
      rewrite length_map, !length_combine, length_map. lia. }
  inversion H; subst; clear H. cbn.
  rewrite !length_map, !length_combine. lia.
Qed.

Lemma match_isochrones_lengths ext fw iso :
  match_isochrones ext fw = Ok iso ->
  length (i_OmegazoverOmegar iso) = Nat.min (length (f_Omegaz fw)) (length (f_Omegar fw))
  /\ i_OmegazoverOmegar iso = zipWith Qcdiv (f_Omegaz fw) (f_Omegar fw).
Proof.
  unfold match_isochrones. destruct (existsb _ _); [discriminate|].
  intros H; inversion H; subst; clear H. cbn. split; [apply zipWith_length | reflexivity].
Qed.

Lemma tori_from_length Es Ls fw iso pt : forall k,
  length (tori_from k Es Ls fw iso pt) = Nat.min (length Es) (length Ls).
Proof.
  revert Ls; induction Es as [|e es IH]; intros [|l ls] k; simpl; auto.
Qed.

Lemma Forall2_length' {A B} (R : A -> B -> Prop) l g :
  Forall2 R l g -> length l = length g.
Proof. induction 1; simpl; congruence. Qed.

(** The shape of the stored tables. *)
Lemma init_shape ext cfg eng :
  init ext cfg = Ok eng ->
  length (e_rgrid eng) = length (e_internal_Es eng)
  /\ (forall rw, In rw (e_rgrid eng) -> length rw = nta cfg)
  /\ length (e_Omegar_orig eng) = length (e_internal_Es eng)
  /\ length (e_Omegaz_orig eng) = length (e_internal_Es eng)
  /\ length (e_OmegazoverOmegar eng) = length (e_internal_Es eng).
Proof.
  intros H. apply init_stages in H.
  destruct H as (nd & fw & iso & pt & tb & Hnd & Hfw & Hiso & _ & Hn & _ & Htb & ->).
  cbn.
  destruct (forward_lengths _ _ _ _ Hnd Hfw) as (_ & Lr & Lz).
  destruct (match_isochrones_lengths _ _ _ Hiso) as (Li & _).
  destruct (create_rgrid_rows ext cfg _ _ Htb) as (Hm & _).
  pose proof (solve_nodes_rows ext cfg (init_tori nd fw iso pt) Hn) as Hg.
  destruct (mapM_ok _ _ _ Hm) as [Hl _].
  split; [|split; [|split; [|split]]]; try assumption.
  - rewrite Hl, <- (Forall2_length' _ _ _ Hg). unfold init_tori.
    rewrite tori_from_length. apply setup_nodes_lengths in Hnd. lia.
  - intros rw Hrw. apply In_nth_error in Hrw. destruct Hrw as (i & Hi).
    destruct (mapM_nth_error_inv _ _ _ _ _ Hm Hi) as (nodes & Hnodes & Hre).
    destruct (Forall2_nth_error _ _ _ Hg _ _ Hnodes) as (c & _ & Hrow).
    eapply reflect_length; eauto. now apply table_row_radii with c.
  - rewrite Li. lia.
Qed.

Lemma in_zipWith_map {A B C} (f : A -> B -> C) l l' x :
  In x (zipWith f l l') -> exists a b, In a l /\ In b l' /\ x = f a b.
Proof.
  unfold zipWith. intros H. apply in_map_iff in H. destruct H as ([a b] & <- & Hin).
  exists a, b. split; [eapply in_combine_l; eauto|].
  split; [eapply in_combine_r; eauto | reflexivity].
Qed.

Lemma init_mapping_shape ext cfg eng :
  init ext cfg = Ok eng ->
  length (e_jra eng) = length (e_internal_Es eng)
  /\ length (e_djradjr eng) = length (e_internal_Es eng)
  /\ length (e_djradLish eng) = length (e_internal_Es eng)
  /\ (forall rw, In rw (e_jra eng) -> length rw = nta cfg)
  /\ (forall rw, In rw (e_djradjr eng) -> length rw = nta cfg)
  /\ (forall rw, In rw (e_djradLish eng) -> length rw = nta cfg).
Proof.
  intros H. destruct (init_shape _ _ _ H) as (Lg & Lrow & _).
  apply init_stages in H.
  destruct H as (nd & fw & iso & pt & tb & Hnd & _ & _ & _ & _ & _ & _ & ->).
  cbn in *.
  assert (Lt : length (init_tori nd fw iso pt) = length (n_internal_Es nd)).
  { unfold init_tori. rewrite tori_from_length.
    apply setup_nodes_lengths in Hnd. lia. }
  repeat split.
  - rewrite zipWith_length. lia.
  - rewrite length_map, zipWith_length. lia.
  - rewrite length_map, zipWith_length. lia.
  - intros rw Hrw. apply in_zipWith_map in Hrw.
    destruct Hrw as (c & rs & _ & Hrs & ->). rewrite length_map. now apply Lrow.
  - intros rw Hrw. apply in_map_iff in Hrw. destruct Hrw as (r0 & <- & Hr0).
    apply in_zipWith_map in Hr0. destruct Hr0 as (c & rs & _ & Hrs & ->).
    rewrite !length_map. now apply Lrow.
  - intros rw Hrw. apply in_map_iff in Hrw. destruct Hrw as (r0 & <- & Hr0).
    apply in_zipWith_map in Hr0. destruct Hr0 as (c & rs & _ & Hrs & ->).
    rewrite !length_map. now apply Lrow.
Qed.



(** ** The noise floor *)

Lemma zero_small_entry floor rw k x :
  nth_error rw k = Some x -> fabs x < floor ->
  nth_error (zero_small floor rw) k = Some 0.
Proof.
  intros Hx Hf. unfold zero_small. rewrite nth_error_map, Hx. simpl.
  apply Qcltb_true in Hf. rewrite Hf. now rewrite fl_0.
Qed.

Lemma rfft_real_length ext x : length (rfft_real ext x) = (length x / 2 + 1)%nat.
Proof. unfold rfft_real. now rewrite length_map, length_seq. Qed.

Lemma harmonics_length ext n x : length (harmonics ext n x) = (length x / 2)%nat.
Proof.
  unfold harmonics. rewrite length_map.
  pose proof (rfft_real_length ext x) as H.
  destruct (rfft_real ext x); simpl in *; lia.
Qed.

Lemma over_harmonic_zero n rw k :
  (k < n)%nat -> nth_error rw k = Some 0 ->
  nth_error (over_harmonic (tl (seq 0 (n + 1))) rw) k = Some 0.
Proof.
  intros Hk Hrw. unfold over_harmonic.
  assert (Hs : nth_error (tl (seq 0 (n + 1))) k = Some (S k)).
  { replace (n + 1)%nat with (S n) by lia. simpl. now rewrite nth_error_seq_lt. }
  rewrite (nth_error_zipWith _ _ _ _ _ _ Hrw Hs). f_equal.
  unfold Qcdiv. apply Qcmult_0_l.
Qed.

(** C8, as stated, fails on a construction without interpolation: a
    coefficient of 5.8e-19 is stored as it is. *)
Lemma noise_floor_counterexample :
  ~ (forall ext cfg eng, init ext cfg = Ok eng -> noise_floor_applied ext eng).
Proof.
  intros H.
  specialize (H (World.make World.noisy) World.one_torus
                (built (World.make World.noisy) World.one_torus)
                ltac:(vm_compute; reflexivity)).
  destruct (H 0%nat 0%nat
              (nth_Q (nth 0 (raw_nSn (World.make World.noisy)
                               (e_nta (built (World.make World.noisy) World.one_torus))
                               (e_jra (built (World.make World.noisy) World.one_torus))
                               (e_jr (built (World.make World.noisy) World.one_torus)))
                          []) 0)) as (H1 & _).
  specialize (H1 ltac:(vm_compute; reflexivity) ltac:(vm_compute; reflexivity)).
  apply (f_equal (option_map this)) in H1. vm_compute in H1. discriminate.
Qed.

Lemma init_fourier ext cfg eng :
  init ext cfg = Ok eng ->
  e_nSn eng
  = (if setup_interp cfg then map (zero_small (fl 1e-16)) else fun t => t)
      (raw_nSn ext (e_nta eng) (e_jra eng) (e_jr eng))
  /\ e_dSndJr eng
     = map (over_harmonic (tl (seq 0 (e_nta eng / 2 + 1))))
           ((if setup_interp cfg then map (zero_small (fl 1e-15)) else fun t => t)
              (raw_dSndJr ext (e_nta eng) (e_djradjr eng)))
  /\ e_dSndLish eng
     = map (over_harmonic (tl (seq 0 (e_nta eng / 2 + 1))))
           ((if setup_interp cfg then map (zero_small (fl 1e-15)) else fun t => t)
              (raw_dSndLish ext (e_nta eng) (e_djradLish eng))).
Proof.
  intros H. apply init_stages in H.
  destruct H as (nd & fw & iso & pt & tb & _ & _ & _ & _ & _ & _ & _ & ->).
  unfold tables. cbn. destruct (setup_interp cfg); auto.
Qed.

Lemma floored_entry raw n floor i k x :
  (forall rw, In rw raw -> (length rw <= n)%nat) ->
  entry raw i k = Some x -> fabs x < floor ->
  entry (map (over_harmonic (tl (seq 0 (n + 1)))) (map (zero_small floor) raw)) i k
  = Some 0.
Proof.
  unfold entry. intros Hl. rewrite !nth_error_map.
  destruct (nth_error raw i) as [rw|] eqn:E; [|discriminate]. simpl.
  intros Hx Hf. apply over_harmonic_zero.
  - assert (k < length rw)%nat by (apply nth_error_Some; congruence).
    specialize (Hl rw (nth_error_In _ _ E)). lia.
  - now apply zero_small_entry with x.
Qed.

(** C8, amended: the floor is applied when the engine is built for
    interpolation. *)
Theorem noise_floor_with_interpolation ext cfg eng :
  setup_interp cfg = true ->
  init ext cfg = Ok eng ->
  noise_floor_applied ext eng.
Proof.
  intros Hs H.
  destruct (init_mapping_shape _ _ _ H) as (_ & _ & _ & _ & Rd & RL).
  destruct (init_fields _ _ _ H) as (Hnta & _).
  destruct (init_fourier _ _ _ H) as (E1 & E2 & E3).
  rewrite Hs in E1, E2, E3. rewrite Hnta in *.
  unfold noise_floor_applied. rewrite Hnta, E1, E2, E3.
  intros i k x. split; [|split].
  - unfold entry. rewrite nth_error_map.
    destruct (nth_error (raw_nSn ext (nta cfg) (e_jra eng) (e_jr eng)) i)
      as [rw|]; [|discriminate].
    simpl. apply zero_small_entry.
  - apply floored_entry. intros rw Hrw. unfold raw_dSndJr in Hrw.
    apply in_map_iff in Hrw. destruct Hrw as (r0 & <- & Hr0).
    rewrite harmonics_length, length_map, (Rd r0 Hr0). lia.
  - apply floored_entry. intros rw Hrw. unfold raw_dSndLish in Hrw.
    apply in_map_iff in Hrw. destruct Hrw as (r0 & <- & Hr0).
    rewrite harmonics_length, length_map, (RL r0 Hr0). lia.
Qed.

Lemma noise_floor_with_interpolation_witness :
  setup_interp World.small_grid = true
  /\ init (World.make World.regular) World.small_grid
     = Ok (built (World.make World.regular) World.small_grid)
  /\ noise_floor_applied (World.make World.regular)
       (built (World.make World.regular) World.small_grid).
Proof.
  split; [reflexivity|]. split; [vm_compute; reflexivity|].
  apply (noise_floor_with_interpolation
           (World.make World.regular) World.small_grid
           (built (World.make World.regular) World.small_grid)
           eq_refl ltac:(vm_compute; reflexivity)).
Defined.
